(** * Verification of the exhaustive-deps patcher

    A shallow embedding of [fix_exhaustive_deps.py] and of the write-back
    policy of [fix_all_eslint.py] / [fix_remaining_eslint.py].

    Python [str] values are embedded as lists of characters; a character is
    a code point below 256 ([ascii]).  Offsets are Python integers ([Z]),
    so that the [-1] of [str.find] and the index arithmetic of the source
    are written as they are in the code. *)

From Stdlib Require Import Ascii String List ZArith Lia Bool Arith.
Import ListNotations.

Local Open Scope Z_scope.

(** ** Texts *)

Abbreviation text := (list ascii) (only parsing).

(** A string literal read as a text. *)
Definition txt (s : string) : text := list_ascii_of_string s.

Definition ascii_eqb (a b : ascii) : bool := Ascii.eqb a b.

Definition text_eq_dec : forall a b : text, {a = b} + {a <> b} :=
  list_eq_dec ascii_dec.

(** [a == b] on [str]. *)
Definition text_eqb (a b : text) : bool :=
  if text_eq_dec a b then true else false.

(** ** The [str] methods the scripts call *)

Module Py.

(** [s.startswith(p)]. *)
Fixpoint starts_with (p s : text) : bool :=
  match p, s with
  | [], _ => true
  | _ :: _, [] => false
  | a :: p', b :: s' => ascii_eqb a b && starts_with p' s'
  end.

(** [s.find(sub)], counting from offset [i]: the lowest offset at which
    [sub] occurs, [-1] when there is none. *)
Fixpoint find_from (sub s : text) (i : Z) : Z :=
  if starts_with sub s then i
  else match s with
       | [] => -1
       | _ :: s' => find_from sub s' (i + 1)
       end.

Definition find (sub s : text) : Z := find_from sub s 0.

(** [sub in s]. *)
Definition contains (sub s : text) : bool := negb (find sub s =? -1).

(** Slice bounds as Python clamps them: a negative bound counts from the
    end, and every bound is clamped to [0 .. len]. *)
Definition clamp (i len : Z) : Z :=
  if i <? 0 then Z.max 0 (len + i) else Z.min i len.

(** [s[i:]], [s[:j]] and [s[i:j]]. *)
Definition slice_from (i : Z) (s : text) : text :=
  skipn (Z.to_nat (clamp i (Z.of_nat (length s)))) s.

Definition slice_to (j : Z) (s : text) : text :=
  firstn (Z.to_nat (clamp j (Z.of_nat (length s)))) s.

Definition slice (i j : Z) (s : text) : text :=
  let len := Z.of_nat (length s) in
  let a := clamp i len in
  let b := clamp j len in
  firstn (Z.to_nat (b - a)) (skipn (Z.to_nat a) s).

(** [sep.join(parts)]. *)
Fixpoint join (sep : text) (parts : list text) : text :=
  match parts with
  | [] => []
  | [p] => p
  | p :: rest => p ++ sep ++ join sep rest
  end.

(** [s.replace(old, new)] for a non-empty [old]: the non-overlapping
    occurrences of [old], leftmost first, are replaced.  [skip] counts the
    characters of the current occurrence still to be passed over. *)
Fixpoint replace_skip (old new s : text) (skip : nat) : text :=
  match s with
  | [] => []
  | c :: s' =>
      match skip with
      | S k => replace_skip old new s' k
      | O =>
          if starts_with old s
          then new ++ replace_skip old new s' (Nat.pred (length old))
          else c :: replace_skip old new s' 0
      end
  end.

(** [s.replace(old, new)]; with an empty [old], [new] is put before every
    character and at the end. *)
Definition replace (s old new : text) : text :=
  match old with
  | [] => new ++ flat_map (fun c => c :: new) s
  | _ :: _ => replace_skip old new s 0
  end.

(** [str.isspace] on a code point below 256. *)
Definition is_space (c : ascii) : bool :=
  let n := N_of_ascii c in
  (((9 <=? n) && (n <=? 13)) || ((28 <=? n) && (n <=? 32))
   || (n =? 133) || (n =? 160))%N.

Fixpoint lstrip (s : text) : text :=
  match s with
  | c :: s' => if is_space c then lstrip s' else s
  | [] => []
  end.

Definition rstrip (s : text) : text := rev (lstrip (rev s)).

(** [s.strip()]. *)
Definition strip (s : text) : text := rstrip (lstrip s).

End Py.

(** ** [wrap_function_with_callback] *)

Definition open_brace : ascii := "{"%char.
Definition close_brace : ascii := "}"%char.
Definition backslash : ascii := "\"%char.

(** The value of [rf"const {func_name} = async \(\) => \{{"]: in a raw
    f-string the backslashes stay and [{{] is one brace. *)
Definition anchor_pattern (func_name : text) : text :=
  txt "const " ++ func_name ++ txt " = async \(\) => \{".

(** The loop [for i in range(start_idx, len(content))] over the characters
    from offset [i] on, with the loop variables [brace_count],
    [in_function] and [end_idx]; [break] returns at once. *)
Fixpoint scan_braces (chars : text) (i : Z) (brace_count : Z)
    (in_function : bool) (end_idx : Z) : Z :=
  match chars with
  | [] => end_idx
  | char :: rest =>
      if ascii_eqb char open_brace then
        scan_braces rest (i + 1) (brace_count + 1) true end_idx
      else if ascii_eqb char close_brace then
        let brace_count := brace_count - 1 in
        if in_function && (brace_count =? 0) then i + 1
        else scan_braces rest (i + 1) brace_count in_function end_idx
      else scan_braces rest (i + 1) brace_count in_function end_idx
  end.

(** Lines 85-98: the value of [end_idx] after the loop.  [start_idx] is
    not negative there, so the loop visits [content[start_idx:]]. *)
Definition closing_end (content : text) (start_idx : Z) : Z :=
  scan_braces (skipn (Z.to_nat start_idx) content) start_idx 0 false start_idx.

(** The scan as the delimiter scanner of the design: the offset of the
    closing brace, or nothing when [end_idx] was left at [start_idx]. *)
Definition find_matching_close (content : text) (start_idx : Z) : option Z :=
  let end_idx := closing_end content start_idx in
  if end_idx <=? start_idx then None else Some (end_idx - 1).

Definition wrap_function_with_callback (content func_name : text)
    (deps : list text) : text :=
  let pattern := anchor_pattern func_name in
  if negb (Py.contains pattern content) then content
  else
    let start_idx := Py.find (txt "const " ++ func_name ++ txt " = async") content in
    if start_idx =? -1 then content
    else
      let end_idx := closing_end content start_idx in
      if end_idx <=? start_idx then content
      else
        let func_text := Py.slice start_idx end_idx content in
        let deps_str := Py.join (txt ", ") deps in
        let new_func :=
          txt "const " ++ func_name ++ txt " = useCallback(async () => "
          ++ Py.slice_from (Py.find (txt "=> {") func_text + 3) func_text
          ++ txt ", [" ++ deps_str ++ txt "]);" in
        let before := Py.slice_to start_idx content in
        let after := Py.slice_from end_idx content in
        let semicolon_idx := Py.find (txt ";") after in
        let after :=
          if negb (semicolon_idx =? -1)
          then Py.slice_from (semicolon_idx + 1) after
          else after in
        before ++ new_func ++ after.

(** ** The regular expressions of the script

    The three patterns the script hands to [re] are sequences of literals
    and of greedy repetitions of a negated one-character class.  [re]
    matches by backtracking: a repetition first takes as many characters as
    it can and gives them back one at a time until the rest of the pattern
    matches.  A negated class matches a newline too, with or without
    [re.DOTALL]. *)

Module Re.

Inductive item : Type :=
  | Lit (l : text)        (* the characters of [l] *)
  | ManyNot (c : ascii)   (* [[^c]*] *)
  | SomeNot (c : ascii).  (* [[^c]+] *)

Definition pattern := list item.

(** The greedy repetition [[^c]*] followed by the continuation [k]; the
    result lists the text each item matched, this item's first. *)
Fixpoint many_not (c : ascii) (k : text -> option (list text)) (s : text)
    : option (list text) :=
  let stop := option_map (cons []) (k s) in
  match s with
  | [] => stop
  | x :: s' =>
      if ascii_eqb x c then stop
      else match many_not c k s' with
           | Some (g :: gs) => Some ((x :: g) :: gs)
           | _ => stop
           end
  end.

(** [pattern.match(s)]: a match that starts at the first character of [s],
    as the texts matched item by item. *)
Fixpoint match_here (p : pattern) (s : text) : option (list text) :=
  match p with
  | [] => Some []
  | Lit l :: p' =>
      if Py.starts_with l s
      then option_map (cons l) (match_here p' (skipn (length l) s))
      else None
  | ManyNot c :: p' => many_not c (match_here p') s
  | SomeNot c :: p' =>
      match s with
      | [] => None
      | x :: s' =>
          if ascii_eqb x c then None
          else match many_not c (match_here p') s' with
               | Some (g :: gs) => Some ((x :: g) :: gs)
               | _ => None
               end
      end
  end.

(** A match object: where it starts and what each item matched. *)
Record match_obj : Type := { m_start : Z; m_parts : list text }.

(** [m.group(0)]. *)
Definition group0 (m : match_obj) : text := concat (m_parts m).

(** The text matched by the item at position [n] of the pattern; the one
    capture group of a pattern is one of its items. *)
Definition part (n : nat) (m : match_obj) : text := nth n (m_parts m) [].

(** [re.search]: the leftmost match. *)
Fixpoint search_from (p : pattern) (s : text) (i : Z) : option match_obj :=
  match match_here p s with
  | Some gs => Some {| m_start := i; m_parts := gs |}
  | None =>
      match s with
      | [] => None
      | _ :: s' => search_from p s' (i + 1)
      end
  end.

Definition search (p : pattern) (s : text) : option match_obj :=
  search_from p s 0.

(** [re.finditer]: the matches from left to right, each search resuming
    where the previous match ended.  [skip] counts the characters of the
    previous match still to be passed over.  The patterns of the script
    begin with a literal, so that no match is empty. *)
Fixpoint finditer_skip (p : pattern) (s : text) (i : Z) (skip : nat)
    : list match_obj :=
  match s with
  | [] => []
  | _ :: s' =>
      match skip with
      | S k => finditer_skip p s' (i + 1) k
      | O =>
          match match_here p s with
          | Some gs =>
              {| m_start := i; m_parts := gs |}
                :: finditer_skip p s' (i + 1) (Nat.pred (length (concat gs)))
          | None => finditer_skip p s' (i + 1) 0
          end
      end
  end.

Definition finditer (p : pattern) (s : text) : list match_obj :=
  finditer_skip p s 0 0.

End Re.

(** ** [add_use_callback_import] *)

(** [r"import React, \{ ([^}]+) \} from 'react';"]; the group is item 1. *)
Definition react_import_pattern : Re.pattern :=
  [Re.Lit (txt "import React, { "); Re.SomeNot close_brace;
   Re.Lit (txt " } from 'react';")].

Definition add_use_callback_import (content : text) : text :=
  if Py.contains (txt "useCallback") content then content
  else
    match Re.search react_import_pattern content with
    | Some m =>
        let imports := Re.part 1 m in
        if negb (Py.contains (txt "useCallback") imports) then
          let new_imports := imports ++ txt ", useCallback" in
          Py.replace content (Re.group0 m)
            (txt "import React, { " ++ new_imports ++ txt " } from 'react';")
        else content
    | None => content
    end.

(** ** [add_deps_to_useeffect] *)

Definition close_bracket : ascii := "]"%char.
Definition open_bracket : ascii := "["%char.

(** A character that stands for itself in a pattern: [func_name] is pasted
    into the pattern text as it is, and the pattern below is what [re]
    compiles when the name is made of word characters. *)
Definition word_char (c : ascii) : bool :=
  let n := N_of_ascii c in
  (((48 <=? n) && (n <=? 57)) || ((65 <=? n) && (n <=? 90))
   || ((97 <=? n) && (n <=? 122)) || (n =? 95))%N.

Definition plain_name (func_name : text) : bool := forallb word_char func_name.

(** [rf"useEffect\(\(\) => \{{[^}}]*{func_name}\(\);[^}}]*\}}, \[[^\]]*\]\);"]. *)
Definition effect_pattern (func_name : text) : Re.pattern :=
  [Re.Lit (txt "useEffect(() => {"); Re.ManyNot close_brace;
   Re.Lit (func_name ++ txt "();"); Re.ManyNot close_brace;
   Re.Lit (txt "}, ["); Re.ManyNot close_bracket; Re.Lit (txt "]);")].

(** The pattern for a bracketed list: an opening bracket, the group
    [[^\]]*] (item 1) and a closing bracket. *)
Definition deps_pattern : Re.pattern :=
  [Re.Lit (txt "["); Re.ManyNot close_bracket; Re.Lit (txt "]")].

(** The body of the loop over the matches: the new value of [content]. *)
Definition patch_match (func_name : text) (content : text) (m : Re.match_obj)
    : text :=
  let effect_text := Re.group0 m in
  match Re.search deps_pattern effect_text with
  | Some deps_match =>
      let current_deps := Py.strip (Re.part 1 deps_match) in
      if negb (Py.contains func_name current_deps) then
        let new_deps :=
          match current_deps with
          | _ :: _ => current_deps ++ txt ", " ++ func_name
          | [] => func_name
          end in
        let new_effect :=
          Py.replace effect_text (txt "[" ++ current_deps ++ txt "]")
            (txt "[" ++ new_deps ++ txt "]") in
        Py.replace content effect_text new_effect
      else content
  | None => content
  end.

Definition add_deps_to_useeffect (content func_name : text) : text :=
  let matches := Re.finditer (effect_pattern func_name) content in
  fold_left (patch_match func_name) matches content.

(** ** Files and the write-back policy *)

Definition path := string.

Definition CR : ascii := "013"%char.
Definition LF : ascii := "010"%char.

(** The platform the script runs on, and its [os.linesep]. *)
Inductive platform : Type := Posix | Windows.

Definition os_linesep (host : platform) : text :=
  match host with
  | Posix => [LF]
  | Windows => [CR; LF]
  end.

(** Reading in text mode, with universal newlines: a carriage return,
    together with the line feed that follows it if there is one, is read
    as one line feed. *)
Fixpoint universal_newlines (chars : text) : text :=
  match chars with
  | [] => []
  | c :: rest =>
      if ascii_eqb c CR then
        LF :: match rest with
              | d :: rest' =>
                  if ascii_eqb d LF then universal_newlines rest'
                  else universal_newlines rest
              | [] => []
              end
      else c :: universal_newlines rest
  end.

(** Writing in text mode: every line feed is written as the line
    separator of the platform. *)
Definition newline_out (host : platform) (content : text) : text :=
  Py.replace content [LF] (os_linesep host).

(** What becomes of opening a file for writing and writing a text to it:
    the text is written; or opening raises, and the file stays as it is;
    or the file is opened, which empties it, and writing raises, so that
    the file holds [remains], whatever had been written by then. *)
Inductive write_outcome : Type :=
  | Completed
  | Refused
  | Interrupted (remains : text).

(** The file system: the characters each file holds, which files can be
    read, what becomes of a write, the platform, and the writes completed
    so far, oldest first, each with the text that was handed over. *)
Record world : Type := {
  files : path -> option text;
  readable : path -> bool;
  outcome : path -> text -> write_outcome;
  host : platform;
  writes : list (path * text)
}.

(** [file_path.read_text()] / [open(filepath, 'r')] and [f.read()]: a
    missing file raises, and so does one that cannot be read. *)
Definition read_text (w : world) (p : path) : option text :=
  match files w p with
  | Some chars =>
      if readable w p then Some (universal_newlines chars) else None
  | None => None
  end.

(** [file_path.exists()]. *)
Definition file_exists (w : world) (p : path) : bool :=
  match files w p with
  | Some _ => true
  | None => false
  end.

(** The world in which the file [p] holds [chars]. *)
Definition set_file (w : world) (p : path) (chars : text) : world :=
  {| files := fun q => if String.eqb q p then Some chars else files w q;
     readable := readable w;
     outcome := outcome w;
     host := host w;
     writes := writes w |}.

(** The world after [content] was written to [p]. *)
Definition written (w : world) (p : path) (content : text) : world :=
  {| files := files (set_file w p (newline_out (host w) content));
     readable := readable w;
     outcome := outcome w;
     host := host w;
     writes := writes w ++ [(p, content)] |}.

(** [file_path.write_text(content)] / [open(filepath, 'w')] and
    [f.write(content)]: whether the call returned, and the world it
    leaves; [false] stands for an exception. *)
Definition write_text (w : world) (p : path) (content : text)
    : bool * world :=
  match outcome w p content with
  | Completed => (true, written w p content)
  | Refused => (false, w)
  | Interrupted remains => (false, set_file w p remains)
  end.

(** Every text can be written to [p]. *)
Definition writable (w : world) (p : path) : Prop :=
  forall content, outcome w p content = Completed.

(** One entry of [FIXES]: [{"name": ..., "deps": [...]}]. *)
Record fix_spec : Type := { fix_name : text; fix_deps : list text }.

(** What [process_file] prints about the file: that it was updated, that
    no changes were needed, or the error that was caught. *)
Inductive report : Type := Updated | NoChanges | Failed.

(** The loop [for fix in fixes] of [process_file]. *)
Definition apply_specs (fixes : list fix_spec) (content : text) : text :=
  fold_left
    (fun content fx =>
       let content :=
         wrap_function_with_callback content (fix_name fx) (fix_deps fx) in
       add_deps_to_useeffect content (fix_name fx))
    fixes content.

(** [process_file]: what it reports and the world it leaves.  Every
    exception is caught and reported as an error; with function names
    made of word characters the patterns compile, and only reading and
    writing the file can raise. *)
Definition process_file (file_path : path) (fixes : list fix_spec) (w : world)
    : report * world :=
  match read_text w file_path with
  | None => (Failed, w)
  | Some content =>
      let original_content := content in
      let content := add_use_callback_import content in
      let content := apply_specs fixes content in
      if negb (text_eqb content original_content)
      then
        match write_text w file_path content with
        | (true, w') => (Updated, w')
        | (false, w') => (Failed, w')
        end
      else (NoChanges, w)
  end.

(** [FIXES]: the files and, for each, the functions to wrap with their
    dependencies, in the order of the source. *)
Definition mk_fix (name : string) (deps : list string) : fix_spec :=
  {| fix_name := txt name; fix_deps := map txt deps |}.

Definition FIXES : list (path * list fix_spec) :=
  [("src/components/GroupAnalytics.tsx",
    [mk_fix "loadAnalytics" ["groupId"; "timeRange"]]);
   ("src/components/GroupChallenges.tsx",
    [mk_fix "loadGroupChallenges" ["groupId"]]);
   ("src/components/GroupInviteLanding.tsx",
    [mk_fix "loadGroup" ["groupId"];
     mk_fix "checkMembershipAndRedirect"
       ["user"; "isAdmin"; "isMember"; "group"; "router"]]);
   ("src/components/LikesList.tsx", [mk_fix "loadUsers" ["userIds"]]);
   ("src/components/ProfileAnalytics.tsx",
    [mk_fix "loadActivityData" ["userId"];
     mk_fix "loadProjectData" ["userId"];
     mk_fix "loadWeeklyData" ["userId"]]);
   ("src/components/ProjectAnalyticsDashboard.tsx",
    [mk_fix "loadAnalyticsData" ["projectId"; "timeRange"]]);
   ("src/components/ProjectList.tsx",
    [mk_fix "loadSessions" ["userId"];
     mk_fix "processChartData" ["sessions"; "timeRange"]]);
   ("src/components/RightSidebar.tsx",
    [mk_fix "loadSuggestedContent" ["user"]]);
   ("src/components/SessionHistory.tsx",
    [mk_fix "loadSessions" ["userId"];
     mk_fix "processChartData" ["sessions"; "selectedTimeRange"]]);
   ("src/components/StreakCard.tsx", [mk_fix "loadGroups" ["userId"]]);
   ("src/components/SuggestedPeopleModal.tsx",
    [mk_fix "loadSuggestions" ["currentUserId"]])]%string.

(** One round of the loop of [main]: a file of the catalogue that exists
    is processed, and what [process_file] reports is kept; a file that
    does not exist is passed over with a warning. *)
Definition main_step (acc : list (path * report) * world)
    (entry : path * list fix_spec) : list (path * report) * world :=
  let '(file_rel_path, fixes) := entry in
  let '(reports, w) := acc in
  if file_exists w file_rel_path then
    let '(r, w') := process_file file_rel_path fixes w in
    (reports ++ [(file_rel_path, r)], w')
  else (reports, w).

(** The loop of [main]; the reports are kept, latest last. *)
Definition main_loop (catalogue : list (path * list fix_spec)) (w : world)
    : list (path * report) * world :=
  fold_left main_step catalogue ([], w).

(** A pattern of [fixes_map]: a [str], or a compiled regular expression,
    of which only the [sub] method is used; [sub replacement content] is
    nothing when the call raises. *)
Inductive fix_pattern : Type :=
  | StrPattern (old : text)
  | RePattern (sub : text -> text -> option text).

(** The loop [for pattern, replacement in fixes] of [fix_file]; nothing
    when a step raises. *)
Fixpoint apply_fixes (fixes : list (fix_pattern * text)) (content : text)
    : option text :=
  match fixes with
  | [] => Some content
  | (StrPattern old, replacement) :: rest =>
      apply_fixes rest (Py.replace content old replacement)
  | (RePattern sub, replacement) :: rest =>
      match sub replacement content with
      | Some content' => apply_fixes rest content'
      | None => None
      end
  end.

(** [fix_file]: the returned flag and the world it leaves.  Every
    exception is caught and gives [False], that of a write too. *)
Definition fix_file (filepath : path) (fixes : list (fix_pattern * text))
    (w : world) : bool * world :=
  match read_text w filepath with
  | None => (false, w)
  | Some content =>
      let original := content in
      match apply_fixes fixes content with
      | None => (false, w)
      | Some content =>
          if negb (text_eqb content original)
          then write_text w filepath content
          else (false, w)
      end
  end.

(** One round of the loop of [main] in [fix_all_eslint.py] and in
    [fix_remaining_eslint.py]: a file of [fixes_map] that exists is fixed,
    and [fixed_count] goes up when [fix_file] returned [True]. *)
Definition eslint_step (acc : Z * world)
    (entry : path * list (fix_pattern * text)) : Z * world :=
  let '(filepath, fixes) := entry in
  let '(fixed_count, w) := acc in
  if file_exists w filepath then
    let '(changed, w') := fix_file filepath fixes w in
    if changed then (fixed_count + 1, w') else (fixed_count, w')
  else (fixed_count, w).

(** The loop of that [main]: the final [fixed_count] and the world. *)
Definition eslint_main (fixes_map : list (path * list (fix_pattern * text)))
    (w : world) : Z * world :=
  fold_left eslint_step fixes_map (0, w).

(** ** Specification notions *)

(** [sub] occurs in [s]. *)
Definition occurs (sub s : text) : Prop := exists a b, s = a ++ sub ++ b.

(** Texts whose braces are balanced. *)
Inductive balanced : text -> Prop :=
  | balanced_nil : balanced []
  | balanced_char c w :
      c <> open_brace -> c <> close_brace -> balanced w -> balanced (c :: w)
  | balanced_pair w1 w2 :
      balanced w1 -> balanced w2 ->
      balanced (open_brace :: w1 ++ close_brace :: w2).

(** The depth after [chars]: opening braces minus closing braces. *)
Definition brace_depth (chars : text) : Z :=
  Z.of_nat (count_occ ascii_dec chars open_brace)
  - Z.of_nat (count_occ ascii_dec chars close_brace).

(** No closing brace of [chars] brings the depth back to zero after a
    brace was opened. *)
Definition never_closes (chars : text) : Prop :=
  forall p rest, chars = p ++ close_brace :: rest ->
                 In open_brace p -> brace_depth p <> 1.

(** No occurrence of [sub] in [pre ++ rest] starts inside [pre]. *)
Fixpoint no_start (sub pre rest : text) : Prop :=
  match pre with
  | [] => True
  | _ :: pre' =>
      Py.starts_with sub (pre ++ rest) = false /\ no_start sub pre' rest
  end.

(** The import line with the imported names [names] between the braces. *)
Definition import_line (names : text) : text :=
  txt "import React, { " ++ names ++ txt " } from 'react';".

(** The opening of an effect, the literal the effect pattern begins with. *)
Definition effect_anchor : text := txt "useEffect(() => {".

(** An effect of the fixed shape: the body is [b1], the call
    [func_name();] and [b2]; [deps] is the text between the brackets. *)
Definition effect_block (func_name b1 b2 deps : text) : text :=
  effect_anchor ++ b1 ++ func_name ++ txt "();" ++ b2
  ++ txt "}, [" ++ deps ++ txt "]);".

(** The list text with [func_name] put at its end. *)
Definition appended_deps (deps func_name : text) : text :=
  match deps with
  | [] => func_name
  | _ :: _ => deps ++ txt ", " ++ func_name
  end.

(** An effect of the fixed shape, as the two texts that vary in it: the
    body between the braces and the list text between the brackets. *)
Record effect : Type := { e_body : text; e_deps : text }.

(** Whether two effects are the same. *)
Definition effect_eq_dec (a b : effect) : {a = b} + {a <> b}.
Proof. decide equality; apply text_eq_dec. Defined.

(** The text of the effect. *)
Definition effect_text (e : effect) : text :=
  effect_anchor ++ e_body e ++ txt "}, [" ++ e_deps e ++ txt "]);".

(** A text with effects in it: before each effect comes a stretch of
    other text, and [tail] comes after the last one. *)
Fixpoint assemble (parts : list (text * effect)) (tail : text) : text :=
  match parts with
  | [] => tail
  | (sep, e) :: rest => sep ++ effect_text e ++ assemble rest tail
  end.

(** The effect with [func_name] in its list: the effect itself when the
    name occurs in the list text, and the effect with the name put at the
    end of the list otherwise. *)
Definition listed (func_name : text) (e : effect) : effect :=
  if Py.contains func_name (e_deps e) then e
  else {| e_body := e_body e;
          e_deps := appended_deps (e_deps e) func_name |}.

(** The effects that call [func_name] and that the pattern of the script
    takes for what they are: the body holds the call, no closing brace
    and no opening bracket, the list text holds no closing bracket, and
    no further effect opens inside either. *)
Definition fixed_shape (func_name : text) (e : effect) : Prop :=
  occurs (func_name ++ txt "();") (e_body e)
  /\ ~ In close_brace (e_body e)
  /\ ~ In open_bracket (e_body e)
  /\ ~ occurs effect_anchor (e_body e)
  /\ ~ In close_bracket (e_deps e)
  /\ ~ occurs effect_anchor (e_deps e).

(** One part of a text with the effect [e0] replaced by [e0'], as
    [content.replace] does it: by comparing texts. *)
Definition swap (e0 e0' : effect) (part : text * effect) : text * effect :=
  (fst part, if effect_eq_dec (snd part) e0 then e0' else snd part).

(** One round of the loop over the matches, seen from one effect [x] of
    the text: it is rewritten when it is the effect [e] of the match. *)
Definition relist (func_name : text) (x e : effect) : effect :=
  if effect_eq_dec x e then listed func_name e else x.

(** An effect of the fixed shape for [func_name] occurs in [content]. *)
Definition has_fixed_shape_effect (func_name content : text) : Prop :=
  exists pre b1 b2 deps post,
    ~ In close_brace b1 /\ ~ In close_brace b2 /\ ~ In close_bracket deps
    /\ content = pre ++ effect_block func_name b1 b2 deps ++ post.

(** The longest prefix of [s] without the character [c]. *)
Fixpoint take_until (c : ascii) (s : text) : text :=
  match s with
  | [] => []
  | x :: s' => if ascii_eqb x c then [] else x :: take_until c s'
  end.

(** In [s], no opening of an effect is followed by [call] before the next
    closing brace. *)
Fixpoint no_plain_call (call s : text) : bool :=
  match s with
  | [] => true
  | _ :: s' =>
      (if Py.starts_with effect_anchor s
       then negb (Py.contains call
                    (take_until close_brace (skipn (length effect_anchor) s)))
       else true)
      && no_plain_call call s'
  end.

(** In [s], every opening of an effect has a closing brace after it, and
    [call] does not occur between the two. *)
Fixpoint closed_without_call (call s : text) : bool :=
  match s with
  | [] => true
  | _ :: s' =>
      (if Py.starts_with effect_anchor s
       then
         let opened := skipn (length effect_anchor) s in
         Py.contains [close_brace] opened
         && negb (Py.contains call (take_until close_brace opened))
       else true)
      && closed_without_call call s'
  end.

(** An effect as the specification describes it: a trigger body and a list
    of inputs separated by commas. *)
Definition effect_of_inputs (body : text) (inputs : list text) : text :=
  effect_anchor ++ body ++ txt "}, [" ++ Py.join (txt ", ") inputs
  ++ txt "]);".

(** The specification's reading of [ensureListed]: whenever the body
    invokes the function and the function is not a member of the inputs,
    it is appended to them. *)
Definition ensure_listed_as_specified : Prop :=
  forall (body : text) (inputs : list text) (func_name : text),
    occurs (func_name ++ txt "();") body ->
    ~ In func_name inputs ->
    add_deps_to_useeffect (effect_of_inputs body inputs) func_name
    = effect_of_inputs body (inputs ++ [func_name]).

(** The specification's reading of change detection: the flag is [True]
    exactly when the text after the fixes differs from the text read. *)
Definition change_detection_as_specified : Prop :=
  forall (p : path) (w : world) (fixes : list (fix_pattern * text))
         (original final : text),
    read_text w p = Some original ->
    apply_fixes fixes original = Some final ->
    (fst (fix_file p fixes w) = true <-> final <> original).

(** What an item of a pattern may match. *)
Inductive item_matches : Re.item -> text -> Prop :=
  | matches_lit l : item_matches (Re.Lit l) l
  | matches_many c g : ~ In c g -> item_matches (Re.ManyNot c) g
  | matches_some c g : g <> [] -> ~ In c g -> item_matches (Re.SomeNot c) g.

(** No match of the effect pattern in [pre ++ rest] starts inside
    [pre]. *)
Fixpoint no_match_start (func_name pre rest : text) : Prop :=
  match pre with
  | [] => True
  | _ :: pre' =>
      Re.match_here (effect_pattern func_name) (pre ++ rest) = None
      /\ no_match_start func_name pre' rest
  end.

(** The text after the first semicolon of [s], if there is one. *)
Fixpoint past_semicolon (s : text) : option text :=
  match s with
  | [] => None
  | c :: s' => if ascii_eqb c ";"%char then Some s' else past_semicolon s'
  end.

(** The declaration [const func_name = async () => { inner }] that
    [wrap_function_with_callback] looks for, and what it makes of it. *)
Definition plain_declaration (func_name inner : text) : text :=
  txt "const " ++ func_name ++ txt " = async () => {" ++ inner ++ txt "}".

Definition wrapped_declaration (func_name inner : text) (deps : list text)
    : text :=
  txt "const " ++ func_name ++ txt " = useCallback(async () => {" ++ inner
  ++ txt "}, [" ++ Py.join (txt ", ") deps ++ txt "]);".

(** ** Sample inputs *)

(** A file of the catalogue of [fix_all_eslint.py] with one of its rules,
    and an entry of [FIXES]. *)
Definition sample_path : path := "src/components/GroupTabs.tsx"%string.

Definition sample_world : world :=
  {| files := fun q =>
       if String.eqb q sample_path
       then Some (txt "const isAdmin = useIsAdmin();")
       else None;
     readable := fun _ => true;
     outcome := fun _ _ => Completed;
     host := Posix;
     writes := [] |}.

(** The same files, none of which can be opened for writing. *)
Definition read_only_world : world :=
  {| files := files sample_world;
     readable := fun _ => true;
     outcome := fun _ _ => Refused;
     host := Posix;
     writes := [] |}.

Definition sample_fixes : list (fix_pattern * text) :=
  [(StrPattern (txt "const isAdmin = "), txt "const _isAdmin = ")].

Definition sample_specs : list fix_spec :=
  [mk_fix "loadGroups" ["userId"%string]].

(** A small component with one import line and one effect. *)
Definition component_text : text :=
  txt "'use client'; import React, { useState, useEffect } from 'react'; function Card({ userId }) { useEffect(() => { loadGroups(); }, [userId]); }".

Definition component_path : path := "src/components/StreakCard.tsx"%string.

Definition component_world : world :=
  {| files := fun q =>
       if String.eqb q component_path
       then Some component_text
       else None;
     readable := fun _ => true;
     outcome := fun _ _ => Completed;
     host := Windows;
     writes := [] |}.

(** A membership in a literal text, decided by computation. *)
Ltac not_in_literal :=
  let H := fresh in intros H; vm_compute in H; intuition discriminate.

(** * Properties *)

(** ** Characters and prefixes *)

Lemma ascii_eqb_true a b : ascii_eqb a b = true <-> a = b.
Proof. unfold ascii_eqb. apply Ascii.eqb_eq. Qed.

Lemma ascii_eqb_false a b : ascii_eqb a b = false <-> a <> b.
Proof. unfold ascii_eqb. apply Ascii.eqb_neq. Qed.

Lemma ascii_eqb_refl a : ascii_eqb a a = true.
Proof. apply ascii_eqb_true. reflexivity. Qed.

Lemma text_eqb_true a b : text_eqb a b = true <-> a = b.
Proof.
  unfold text_eqb. destruct (text_eq_dec a b); split; congruence.
Qed.

Lemma text_eqb_false a b : text_eqb a b = false <-> a <> b.
Proof.
  unfold text_eqb. destruct (text_eq_dec a b); split; congruence.
Qed.

Lemma starts_with_app p r : Py.starts_with p (p ++ r) = true.
Proof.
  induction p as [|a p IH]; simpl; [reflexivity|].
  now rewrite ascii_eqb_refl, IH.
Qed.

Lemma starts_with_true p s :
  Py.starts_with p s = true <-> exists r, s = p ++ r.
Proof.
  split.
  - revert s. induction p as [|a p IH]; intros s H.
    + exists s. reflexivity.
    + destruct s as [|b s]; simpl in H; [discriminate|].
      apply andb_true_iff in H. destruct H as [Hab Hps].
      apply ascii_eqb_true in Hab. subst b.
      destruct (IH _ Hps) as [r ->]. exists r. reflexivity.
  - intros [r ->]. apply starts_with_app.
Qed.

Lemma starts_with_skipn p s :
  Py.starts_with p s = true -> s = p ++ skipn (length p) s.
Proof.
  intros H. apply starts_with_true in H. destruct H as [r ->].
  now rewrite skipn_app, skipn_all, Nat.sub_diag.
Qed.

(** ** The [str] methods on small inputs *)

Example find_first_occurrence :
  Py.find (txt "ab") (txt "xxabyab") = 2
  /\ Py.find (txt "ab") (txt "xxa") = -1
  /\ Py.find (txt "") (txt "xx") = 0.
Proof. repeat split. Qed.

Example replace_leftmost_non_overlapping :
  Py.replace (txt "aaa") (txt "aa") (txt "b") = txt "ba"
  /\ Py.replace (txt "a.b.c") (txt ".") (txt ", ") = txt "a, b, c"
  /\ Py.replace (txt "ab") (txt "") (txt "-") = txt "-a-b-".
Proof. repeat split. Qed.

Example strip_white_space :
  Py.strip (" "%char :: "009"%char :: txt "a b" ++ ["010"%char]) = txt "a b"
  /\ Py.strip (txt "   ") = [].
Proof. split; reflexivity. Qed.

Example slice_like_python :
  Py.slice 2 4 (txt "abcdef") = txt "cd"
  /\ Py.slice_from 2 (txt "abcdef") = txt "cdef"
  /\ Py.slice_from (-2) (txt "abcdef") = txt "ef"
  /\ Py.slice_to 9 (txt "abc") = txt "abc".
Proof. repeat split. Qed.

Example join_with_comma :
  Py.join (txt ", ") [txt "a"; txt "b"; txt "c"] = txt "a, b, c"
  /\ Py.join (txt ", ") [] = [].
Proof. split; reflexivity. Qed.

(** Greedy matching with backtracking: the repetition gives back the
    space that the literal after it needs. *)
Example import_pattern_backtracks :
  option_map Re.m_parts
    (Re.search react_import_pattern
       (txt "x; import React, { useState } from 'react';"))
  = Some [txt "import React, { "; txt "useState"; txt " } from 'react';"].
Proof. reflexivity. Qed.

Example finditer_resumes_after_match :
  map Re.group0
    (Re.finditer deps_pattern (txt "a[1][2, 3] b[] ["))
  = [txt "[1]"; txt "[2, 3]"; txt "[]"].
Proof. reflexivity. Qed.

(** ** [find] and [in] *)

Lemma find_from_absent sub s i :
  Py.find_from sub s i = -1 -> 0 <= i -> ~ occurs sub s.
Proof.
  revert i. induction s as [|c s IH]; intros i H Hi [a [b E]]; simpl in H.
  - destruct a; [|discriminate]. destruct sub; [|discriminate].
    simpl in H. lia.
  - destruct (Py.starts_with sub (c :: s)) eqn:Hp; [lia|].
    destruct a as [|x a].
    + simpl in E. rewrite E, starts_with_app in Hp. discriminate.
    + injection E as _ E. apply (IH (i + 1)); [exact H | lia |].
      exists a, b. exact E.
Qed.

Lemma find_from_present sub s i :
  Py.find_from sub s i <> -1 -> occurs sub s.
Proof.
  revert i. induction s as [|c s IH]; intros i H; simpl in H.
  - destruct (Py.starts_with sub []) eqn:Hp; [|congruence].
    apply starts_with_true in Hp. destruct Hp as [r Hr].
    exists [], r. exact Hr.
  - destruct (Py.starts_with sub (c :: s)) eqn:Hp.
    + apply starts_with_true in Hp. destruct Hp as [r Hr].
      exists [], r. exact Hr.
    + destruct (IH _ H) as [a [b E]]. exists (c :: a), b. now rewrite E.
Qed.

Lemma contains_true sub s : Py.contains sub s = true <-> occurs sub s.
Proof.
  unfold Py.contains, Py.find. split.
  - intros H. apply negb_true_iff, Z.eqb_neq in H.
    now apply find_from_present in H.
  - intros H. apply negb_true_iff, Z.eqb_neq. intros E.
    now apply find_from_absent in E.
Qed.

Lemma contains_false sub s : Py.contains sub s = false <-> ~ occurs sub s.
Proof.
  rewrite <- contains_true. destruct (Py.contains sub s); split; congruence.
Qed.

Lemma occurs_In sub s c : occurs sub s -> In c sub -> In c s.
Proof.
  intros [a [b ->]] H. apply in_or_app. right. apply in_or_app. now left.
Qed.

(** ** The brace scan *)

Lemma scan_braces_plain lead : forall chars i bc inf e,
  ~ In open_brace lead -> ~ In close_brace lead ->
  scan_braces (lead ++ chars) i bc inf e
  = scan_braces chars (i + Z.of_nat (length lead)) bc inf e.
Proof.
  induction lead as [|c lead IH]; intros chars i bc inf e Ho Hc.
  - simpl. f_equal. lia.
  - simpl in Ho, Hc. cbn [app scan_braces].
    destruct (ascii_eqb c open_brace) eqn:E1.
    { apply ascii_eqb_true in E1. subst c. tauto. }
    destruct (ascii_eqb c close_brace) eqn:E2.
    { apply ascii_eqb_true in E2. subst c. tauto. }
    rewrite IH by tauto. f_equal. cbn [length]. lia.
Qed.

Lemma scan_braces_balanced w : balanced w -> forall chars i bc e,
  1 <= bc ->
  scan_braces (w ++ chars) i bc true e
  = scan_braces chars (i + Z.of_nat (length w)) bc true e.
Proof.
  induction 1 as [|c w Ho Hc Hw IH|w1 w2 H1 IH1 H2 IH2];
    intros chars i bc e Hbc.
  - simpl. f_equal. lia.
  - cbn [app scan_braces].
    apply ascii_eqb_false in Ho, Hc. rewrite Ho, Hc.
    rewrite IH by exact Hbc. f_equal. cbn [length]. lia.
  - cbn [app scan_braces]. rewrite ascii_eqb_refl.
    rewrite <- app_assoc. rewrite IH1 by lia.
    cbn [app scan_braces].
    replace (ascii_eqb close_brace open_brace) with false by reflexivity.
    rewrite ascii_eqb_refl.
    replace (bc + 1 - 1 =? 0) with false by (symmetry; apply Z.eqb_neq; lia).
    cbn [andb]. rewrite IH2 by lia.
    f_equal; cbn [length]; rewrite ?length_app; cbn [length]; lia.
Qed.

Lemma brace_depth_cons c p :
  brace_depth (c :: p)
  = (if ascii_eqb c open_brace then 1 else 0)
    - (if ascii_eqb c close_brace then 1 else 0) + brace_depth p.
Proof.
  unfold brace_depth. cbn [count_occ].
  destruct (ascii_dec c open_brace) as [E1|Ho];
    destruct (ascii_dec c close_brace) as [E2|Hc]; try subst c.
  - discriminate E2.
  - replace (ascii_eqb open_brace close_brace) with false by reflexivity.
    rewrite ascii_eqb_refl. lia.
  - replace (ascii_eqb close_brace open_brace) with false by reflexivity.
    rewrite ascii_eqb_refl. lia.
  - apply ascii_eqb_false in Ho, Hc. rewrite Ho, Hc. lia.
Qed.

(** The loop leaves [end_idx] as it was when no closing brace brings the
    counter to zero; [bc] and [inf] are the counter and the flag reached
    before [chars]. *)
Lemma scan_braces_never chars : forall i bc inf e,
  (forall p rest, chars = p ++ close_brace :: rest ->
                  inf = true \/ In open_brace p -> bc + brace_depth p <> 1) ->
  scan_braces chars i bc inf e = e.
Proof.
  induction chars as [|c chars IH]; intros i bc inf e H; [reflexivity|].
  cbn [scan_braces].
  destruct (ascii_eqb c open_brace) eqn:E1.
  - apply ascii_eqb_true in E1. subst c. apply IH.
    intros p rest Hp _. specialize (H (open_brace :: p) rest).
    rewrite brace_depth_cons in H. rewrite ascii_eqb_refl in H.
    replace (ascii_eqb open_brace close_brace) with false in H by reflexivity.
    rewrite Hp in H. specialize (H eq_refl). cbn [In] in H.
    assert (bc + (1 - 0 + brace_depth p) <> 1) by (apply H; right; now left).
    lia.
  - destruct (ascii_eqb c close_brace) eqn:E2.
    + apply ascii_eqb_true in E2. subst c.
      assert (Hstop : inf && (bc - 1 =? 0) = false).
      { destruct inf; [|reflexivity]. cbn [andb]. apply Z.eqb_neq.
        specialize (H [] chars eq_refl (or_introl eq_refl)).
        unfold brace_depth in H. simpl in H. lia. }
      rewrite Hstop. apply IH.
      intros p rest Hp Hin. specialize (H (close_brace :: p) rest).
      rewrite brace_depth_cons, E1, ascii_eqb_refl in H.
      rewrite Hp in H. specialize (H eq_refl). cbn [In] in H.
      assert (bc + (0 - 1 + brace_depth p) <> 1).
      { apply H. destruct Hin as [Hin|Hin]; [now left|right; now right]. }
      lia.
    + apply IH. intros p rest Hp Hin. specialize (H (c :: p) rest).
      rewrite brace_depth_cons, E1, E2 in H.
      rewrite Hp in H. specialize (H eq_refl). cbn [In] in H.
      assert (bc + (0 - 0 + brace_depth p) <> 1).
      { apply H. destruct Hin as [Hin|Hin]; [now left|right; now right]. }
      lia.
Qed.

Lemma closing_end_never content start_idx :
  never_closes (skipn (Z.to_nat start_idx) content) ->
  closing_end content start_idx = start_idx.
Proof.
  intros H. unfold closing_end. apply scan_braces_never.
  intros p rest Hp [Hin|Hin]; [discriminate|].
  specialize (H p rest Hp Hin). lia.
Qed.

(** ** [wrap_function_with_callback] *)

(** C1 (the code departs from the claim).  On the text
    [const loadX = async () => { fetchA(); };] with the name [loadX] and
    the dependency [userId], [wrap_function_with_callback] returns the text
    as it was: the anchor test looks for the pattern text, backslashes
    included, and the declaration is not rewritten to the
    [useCallback(..., [userId])] form the claim gives. *)
Theorem C1_wrap_example_not_rewritten :
  wrap_function_with_callback
    (txt "const loadX = async () => { fetchA(); };") (txt "loadX")
    [txt "userId"]
  = txt "const loadX = async () => { fetchA(); };"
  /\ wrap_function_with_callback
       (txt "const loadX = async () => { fetchA(); };") (txt "loadX")
       [txt "userId"]
     <> txt "const loadX = useCallback(async () => { fetchA(); }, [userId]);".
Proof.
  split; [vm_compute; reflexivity|].
  vm_compute. discriminate.
Qed.

(** The rest of the function does run when the pattern text itself
    stands in the file, here in a comment; the declaration found first is
    then the one in the comment. *)
Example wrap_runs_on_raw_pattern_text :
  wrap_function_with_callback
    (txt "/* const loadX = async \(\) => \{ } */ const loadX = async () => { fetchA(); };")
    (txt "loadX") [txt "userId"]
  = txt "/* const loadX = useCallback(async () => nst loadX = async \(\) => \{ }, [userId]); };".
Proof. vm_compute. reflexivity. Qed.

Lemma anchor_pattern_backslash func_name :
  In backslash (anchor_pattern func_name).
Proof.
  unfold anchor_pattern. apply in_or_app. right. apply in_or_app. right.
  vm_compute. tauto.
Qed.

(** C2.  A text in which the pattern text
    [const <func_name> = async \(\) => \{], backslashes included, does not
    occur -- in particular a text without any backslash -- is returned
    unchanged by [wrap_function_with_callback]. *)
Theorem C2_wrap_unchanged_without_raw_pattern
    (content func_name : text) (deps : list text)
    (H : ~ occurs (anchor_pattern func_name) content
         \/ ~ In backslash content) :
  wrap_function_with_callback content func_name deps = content.
Proof.
  assert (Hc : Py.contains (anchor_pattern func_name) content = false).
  { apply contains_false. destruct H as [H|H]; [exact H|].
    intros Ho. apply H.
    apply (occurs_In _ _ _ Ho), anchor_pattern_backslash. }
  unfold wrap_function_with_callback. rewrite Hc. reflexivity.
Qed.

Lemma C2_wrap_unchanged_witness :
  wrap_function_with_callback
    (txt "const loadX = async () => { fetchA(); };") (txt "loadX")
    [txt "userId"]
  = txt "const loadX = async () => { fetchA(); };".
Proof.
  apply C2_wrap_unchanged_without_raw_pattern.
  left. apply contains_false. vm_compute. reflexivity.
Defined.

(** C5.  When the text from the scan start on is a brace-free lead, an
    opening brace, a balanced text, the closing brace and any rest, the
    scan returns the offset of that closing brace, nested pairs skipped;
    so [{ a { b } c }] scanned from offset 0 gives offset 12. *)
Theorem C5_scan_finds_matching_close
    (before lead inner rest : text)
    (Hopen : ~ In open_brace lead) (Hclose : ~ In close_brace lead)
    (Hbal : balanced inner) :
  find_matching_close
    (before ++ lead ++ open_brace :: inner ++ close_brace :: rest)
    (Z.of_nat (length before))
  = Some (Z.of_nat (length before + length lead + length inner) + 1).
Proof.
  unfold find_matching_close, closing_end.
  rewrite Nat2Z.id, skipn_app, skipn_all, Nat.sub_diag.
  cbn [app skipn].
  rewrite scan_braces_plain by assumption.
  cbn [scan_braces]. rewrite ascii_eqb_refl.
  rewrite scan_braces_balanced by (assumption || lia).
  cbn [scan_braces].
  replace (ascii_eqb close_brace open_brace) with false by reflexivity.
  rewrite ascii_eqb_refl.
  replace (0 + 1 - 1 =? 0) with true by reflexivity. cbn [andb].
  match goal with |- (if ?b then _ else _) = _ =>
    replace b with false by (symmetry; apply Z.leb_gt; lia) end.
  f_equal. lia.
Qed.

Lemma C5_scan_example : find_matching_close (txt "{ a { b } c }") 0 = Some 12.
Proof.
  apply (C5_scan_finds_matching_close [] [] (txt " a { b } c ") []).
  - simpl. tauto.
  - simpl. tauto.
  - apply balanced_char; [discriminate|discriminate|].
    apply balanced_char; [discriminate|discriminate|].
    apply balanced_char; [discriminate|discriminate|].
    apply (balanced_pair (txt " b ") (txt " c ")).
    + repeat (apply balanced_char; [discriminate|discriminate|]).
      apply balanced_nil.
    + repeat (apply balanced_char; [discriminate|discriminate|]).
      apply balanced_nil.
Defined.

(** C6.  When, from the offset where the declaration is found, the end of
    the text comes before a closing brace brings the depth back to zero,
    the scan finds nothing and [wrap_function_with_callback] returns the
    text unchanged. *)
Theorem C6_wrap_unchanged_when_scan_fails
    (content func_name : text) (deps : list text)
    (H : never_closes
           (skipn
              (Z.to_nat
                 (Py.find (txt "const " ++ func_name ++ txt " = async") content))
              content)) :
  find_matching_close content
    (Py.find (txt "const " ++ func_name ++ txt " = async") content) = None
  /\ wrap_function_with_callback content func_name deps = content.
Proof.
  pose proof (closing_end_never _ _ H) as E. split.
  - unfold find_matching_close. rewrite E.
    now rewrite Z.leb_refl.
  - unfold wrap_function_with_callback.
    destruct (negb _); [reflexivity|].
    destruct (_ =? -1); [reflexivity|].
    rewrite E. now rewrite Z.leb_refl.
Qed.

Lemma C6_wrap_truncated_witness :
  find_matching_close (txt "const f = async \(\) => \{ g(); ")
    (Py.find (txt "const " ++ txt "f" ++ txt " = async")
       (txt "const f = async \(\) => \{ g(); ")) = None
  /\ wrap_function_with_callback (txt "const f = async \(\) => \{ g(); ")
       (txt "f") [txt "userId"]
     = txt "const f = async \(\) => \{ g(); ".
Proof.
  apply C6_wrap_unchanged_when_scan_fails.
  intros p rest Hp _.
  assert (Hin : In close_brace (p ++ close_brace :: rest)).
  { apply in_or_app. right. now left. }
  rewrite <- Hp in Hin. vm_compute in Hin.
  repeat (destruct Hin as [Hin|Hin]; [discriminate Hin|]). destruct Hin.
Defined.

(** ** Change detection and write-back *)

Lemma sample_specs_plain :
  Forall (fun fx => plain_name (fix_name fx) = true) sample_specs.
Proof. repeat constructor. Qed.




Example fix_file_sample :
  fst (fix_file sample_path sample_fixes sample_world) = true
  /\ writes (snd (fix_file sample_path sample_fixes sample_world))
     = [(sample_path, txt "const _isAdmin = useIsAdmin();")]
  /\ process_file sample_path sample_specs sample_world
     = (NoChanges, sample_world)
  /\ fix_file sample_path sample_fixes read_only_world
     = (false, read_only_world).
Proof. repeat split; vm_compute; reflexivity. Qed.

(** ** [str.replace] *)

Lemma replace_skip_skipn old new s : forall k,
  Py.replace_skip old new s k = Py.replace_skip old new (skipn k s) 0.
Proof.
  induction s as [|c s IH]; intros [|k]; try reflexivity.
  cbn [Py.replace_skip skipn]. apply IH.
Qed.

Lemma replace_hit o old new r :
  Py.replace ((o :: old) ++ r) (o :: old) new
  = new ++ Py.replace r (o :: old) new.
Proof.
  unfold Py.replace. cbn [app Py.replace_skip].
  change (o :: old ++ r) with ((o :: old) ++ r). rewrite starts_with_app.
  rewrite replace_skip_skipn. cbn [length Nat.pred].
  now rewrite skipn_app, skipn_all, Nat.sub_diag.
Qed.

Lemma replace_miss o old new c s :
  Py.starts_with (o :: old) (c :: s) = false ->
  Py.replace (c :: s) (o :: old) new = c :: Py.replace s (o :: old) new.
Proof.
  intros H. unfold Py.replace. cbn [Py.replace_skip]. now rewrite H.
Qed.

Lemma not_occurs_cons sub c s :
  ~ occurs sub (c :: s) ->
  Py.starts_with sub (c :: s) = false /\ ~ occurs sub s.
Proof.
  intros H. split.
  - destruct (Py.starts_with sub (c :: s)) eqn:E; [|reflexivity].
    apply starts_with_true in E. destruct E as [r E].
    exfalso. apply H. now exists [], r.
  - intros [a [b E]]. apply H. exists (c :: a), b. now rewrite E.
Qed.

Lemma replace_absent o old new s :
  ~ occurs (o :: old) s -> Py.replace s (o :: old) new = s.
Proof.
  induction s as [|c s IH]; intros H; [reflexivity|].
  apply not_occurs_cons in H. destruct H as [H1 H2].
  rewrite replace_miss by exact H1. now rewrite IH.
Qed.

Lemma replace_no_start o old new pre rest :
  no_start (o :: old) pre rest ->
  Py.replace (pre ++ rest) (o :: old) new
  = pre ++ Py.replace rest (o :: old) new.
Proof.
  induction pre as [|c pre IH]; intros H; [reflexivity|].
  destruct H as [H1 H2]. cbn [app] in *.
  rewrite replace_miss by exact H1. now rewrite IH.
Qed.

Lemma join_cons2 sep p q rest :
  Py.join sep (p :: q :: rest) = p ++ sep ++ Py.join sep (q :: rest).
Proof. reflexivity. Qed.

Lemma join_cons_char sep c g gs :
  Py.join sep ((c :: g) :: gs) = c :: Py.join sep (g :: gs).
Proof. destruct gs; reflexivity. Qed.

(** [s.replace(old, new)] is [new.join(s.split(old))]: the text is cut at
    occurrences of [old], and the pieces are put together again with
    [new]; there are at least two pieces when [old] occurs. *)
Lemma replace_as_join o old new : forall n s, (length s <= n)%nat ->
  exists segs,
    segs <> []
    /\ s = Py.join (o :: old) segs
    /\ Py.replace s (o :: old) new = Py.join new segs
    /\ (occurs (o :: old) s -> (2 <= length segs)%nat).
Proof.
  induction n as [|n IH]; intros s Hn.
  - destruct s; [|simpl in Hn; lia].
    exists [[]]. repeat split; try discriminate.
    intros [a [b E]]. destruct a; discriminate.
  - destruct s as [|c s].
    { exists [[]]. repeat split; try discriminate.
      intros [a [b E]]. destruct a; discriminate. }
    destruct (Py.starts_with (o :: old) (c :: s)) eqn:E.
    + apply starts_with_true in E. destruct E as [r E].
      assert (Hr : (length r <= n)%nat).
      { apply (f_equal (@length _)) in E. rewrite length_app in E.
        simpl in E, Hn. lia. }
      destruct (IH r Hr) as (segs & Hne & Hs & Hrep & _).
      destruct segs as [|g gs]; [congruence|].
      exists ([] :: g :: gs). rewrite E, replace_hit, !join_cons2.
      cbn [app]. rewrite <- Hs, <- Hrep.
      repeat split; try discriminate. intros _. simpl. lia.
    + assert (Hs' : (length s <= n)%nat) by (simpl in Hn; lia).
      destruct (IH s Hs') as (segs & Hne & Hs & Hrep & Hocc).
      destruct segs as [|g gs]; [congruence|].
      exists ((c :: g) :: gs). rewrite replace_miss by exact E.
      rewrite !join_cons_char, <- Hs, <- Hrep.
      repeat split; try discriminate.
      intros [a [b Eo]]. destruct a as [|x a].
      * cbn [app] in Eo. rewrite Eo in E.
        change (o :: old ++ b) with ((o :: old) ++ b) in E.
        rewrite starts_with_app in E. discriminate.
      * injection Eo as _ Eo. cbn [length]. apply Hocc. now exists a, b.
Qed.

Lemma occurs_join_r sep segs x :
  (2 <= length segs)%nat -> occurs x sep -> occurs x (Py.join sep segs).
Proof.
  intros Hlen [a [b E]]. destruct segs as [|p [|q rest]]; simpl in Hlen; try lia.
  rewrite join_cons2, E. exists (p ++ a), (b ++ Py.join (a ++ x ++ b) (q :: rest)).
  now rewrite <- !app_assoc.
Qed.

(** ** The matcher *)

Lemma many_not_sound c k : forall s gs,
  Re.many_not c k s = Some gs ->
  exists g gs' r, gs = g :: gs' /\ ~ In c g /\ s = g ++ r /\ k r = Some gs'.
Proof.
  assert (Hstop : forall s gs, option_map (cons []) (k s) = Some gs ->
    exists g gs' r, gs = g :: gs' /\ ~ In c g /\ s = g ++ r /\ k r = Some gs').
  { intros s gs H. destruct (k s) as [l|] eqn:K; [|discriminate].
    injection H as <-. exists [], l, s. repeat split; auto. }
  induction s as [|x s IH]; intros gs H; cbn [Re.many_not] in H.
  - now apply Hstop.
  - destruct (ascii_eqb x c) eqn:E; [now apply Hstop|].
    destruct (Re.many_not c k s) as [[|g gs0]|] eqn:M;
      [now apply Hstop| |now apply Hstop].
    injection H as <-.
    destruct (IH _ eq_refl) as (g' & gs' & r & E1 & Hn & Hs & Hk).
    injection E1 as -> ->.
    exists (x :: g'), gs', r. repeat split; auto.
    + intros [Hx|Hx]; [|tauto]. apply ascii_eqb_false in E. congruence.
    + now rewrite Hs.
Qed.

(** Soundness: what [match_here] returns is a prefix of the text cut
    into pieces that the items of the pattern match one by one. *)
Lemma match_here_sound p : forall s gs,
  Re.match_here p s = Some gs ->
  Forall2 item_matches p gs /\ exists r, s = concat gs ++ r.
Proof.
  induction p as [|it p IH]; intros s gs H.
  - injection H as <-. split; [constructor|]. now exists s.
  - destruct it as [l|c|c]; cbn [Re.match_here] in H.
    + destruct (Py.starts_with l s) eqn:E; [|discriminate].
      destruct (Re.match_here p (skipn (length l) s)) as [gs'|] eqn:M;
        [|discriminate].
      injection H as <-. destruct (IH _ _ M) as [HF [r Hr]].
      split; [constructor; [constructor|exact HF]|].
      exists r. cbn [concat]. rewrite <- app_assoc, <- Hr.
      now apply starts_with_skipn.
    + apply many_not_sound in H.
      destruct H as (g & gs' & r & -> & Hn & -> & Hk).
      destruct (IH _ _ Hk) as [HF [r' Hr]].
      split; [constructor; [now constructor|exact HF]|].
      exists r'. cbn [concat]. now rewrite <- app_assoc, <- Hr.
    + destruct s as [|x s]; [discriminate|].
      destruct (ascii_eqb x c) eqn:E; [discriminate|].
      destruct (Re.many_not c (Re.match_here p) s) as [[|g gs0]|] eqn:M;
        try discriminate.
      injection H as <-. apply many_not_sound in M.
      destruct M as (g' & gs' & r & E1 & Hn & -> & Hk).
      injection E1 as -> ->.
      destruct (IH _ _ Hk) as [HF [r' Hr]].
      split.
      * constructor; [|exact HF]. constructor; [discriminate|].
        intros [Hx|Hx]; [|tauto]. apply ascii_eqb_false in E. congruence.
      * exists r'. cbn [concat app]. now rewrite <- app_assoc, <- Hr.
Qed.

Lemma many_not_stop c k s :
  k s <> None -> Re.many_not c k s <> None.
Proof.
  intros H. destruct (k s) as [l|] eqn:K; [|congruence].
  destruct s as [|x s]; cbn [Re.many_not]; rewrite K; [discriminate|].
  destruct (ascii_eqb x c); [discriminate|].
  destruct (Re.many_not c k s) as [[|g gs]|]; discriminate.
Qed.

Lemma many_not_complete c k g r :
  ~ In c g -> k r <> None -> Re.many_not c k (g ++ r) <> None.
Proof.
  intros Hn Hk. induction g as [|x g IH]; [now apply many_not_stop|].
  cbn [app Re.many_not].
  assert (E : ascii_eqb x c = false).
  { apply ascii_eqb_false. intros ->. apply Hn. now left. }
  rewrite E.
  destruct (Re.many_not c k (g ++ r)) as [[|g0 gs]|] eqn:M.
  - apply many_not_sound in M. destruct M as (? & ? & ? & E1 & _).
    discriminate.
  - discriminate.
  - exfalso. apply IH; [|reflexivity]. intros Hx. apply Hn. now right.
Qed.

(** Completeness: a text that begins with pieces the items match is
    matched, by these pieces or by others. *)
Lemma match_here_complete p gs : Forall2 item_matches p gs ->
  forall r, Re.match_here p (concat gs ++ r) <> None.
Proof.
  induction 1 as [|it g p gs Hit HF IH]; intros r; [discriminate|].
  cbn [concat]. rewrite <- app_assoc.
  destruct Hit as [l|c g Hn|c g Hne Hn]; cbn [Re.match_here].
  - rewrite starts_with_app, skipn_app, skipn_all, Nat.sub_diag.
    cbn [skipn app]. specialize (IH r).
    destruct (Re.match_here p (concat gs ++ r)); [discriminate|congruence].
  - apply many_not_complete; [exact Hn|apply IH].
  - destruct g as [|x g]; [congruence|]. cbn [app].
    assert (E : ascii_eqb x c = false).
    { apply ascii_eqb_false. intros ->. apply Hn. now left. }
    rewrite E.
    destruct (Re.many_not c (Re.match_here p) (g ++ concat gs ++ r))
      as [[|g0 gs0]|] eqn:M.
    + apply many_not_sound in M. destruct M as (? & ? & ? & E1 & _).
      discriminate.
    + discriminate.
    + exfalso. revert M. apply many_not_complete; [|apply IH].
      intros Hx. apply Hn. now right.
Qed.

(** A repetition that meets its closing character takes all that comes
    before it, when the rest of the pattern matches from there. *)
Lemma many_not_upto c k g r gs :
  ~ In c g -> k (c :: r) = Some gs ->
  Re.many_not c k (g ++ c :: r) = Some (g :: gs).
Proof.
  intros Hn Hk. induction g as [|x g IH]; cbn [app Re.many_not].
  - now rewrite ascii_eqb_refl, Hk.
  - assert (E : ascii_eqb x c = false).
    { apply ascii_eqb_false. intros ->. apply Hn. now left. }
    rewrite E, IH; [reflexivity|]. intros Hx. apply Hn. now right.
Qed.

Lemma search_from_sound p : forall s i m,
  Re.search_from p s i = Some m ->
  exists a b, s = a ++ b /\ Re.match_here p b = Some (Re.m_parts m).
Proof.
  induction s as [|c s IH]; intros i m H; cbn [Re.search_from] in H.
  - destruct (Re.match_here p []) eqn:M; [|discriminate].
    injection H as <-. now exists [], [].
  - destruct (Re.match_here p (c :: s)) eqn:M.
    + injection H as <-. now exists [], (c :: s).
    + destruct (IH _ _ H) as (a & b & -> & Hb). now exists (c :: a), b.
Qed.

Lemma finditer_skip_none p : forall s i k,
  (forall a b, s = a ++ b -> Re.match_here p b = None) ->
  Re.finditer_skip p s i k = [].
Proof.
  induction s as [|c s IH]; intros i k H; [reflexivity|].
  cbn [Re.finditer_skip].
  assert (H' : forall a b, s = a ++ b -> Re.match_here p b = None).
  { intros a b ->. now apply (H (c :: a)). }
  destruct k; [|now apply IH].
  rewrite (H [] (c :: s) eq_refl). now apply IH.
Qed.

(** ** [add_use_callback_import] *)

Lemma occurs_trans x y z : occurs x y -> occurs y z -> occurs x z.
Proof.
  intros [a [b ->]] [a' [b' ->]]. exists (a' ++ a), (b ++ b').
  now rewrite <- !app_assoc.
Qed.

Lemma occurs_join_sep sep segs :
  (2 <= length segs)%nat -> occurs sep (Py.join sep segs).
Proof.
  intros H. apply occurs_join_r; [exact H|]. exists [], [].
  now rewrite app_nil_r.
Qed.

(** A match of the import pattern is an import line with a non-empty list
    of names free of closing braces. *)
Lemma import_search_shape content m :
  Re.search react_import_pattern content = Some m ->
  exists names,
    names <> [] /\ ~ In close_brace names
    /\ Re.group0 m = import_line names /\ Re.part 1 m = names
    /\ occurs (import_line names) content.
Proof.
  intros H. apply search_from_sound in H.
  destruct H as (a & b & -> & H). apply match_here_sound in H.
  destruct H as [HF [r Hr]]. unfold Re.group0, Re.part.
  destruct (Re.m_parts m) as [|g1 [|g2 [|g3 [|g4 gs]]]];
    unfold react_import_pattern in HF;
    repeat match goal with
           | H : Forall2 _ _ _ |- _ => inversion H; clear H; subst
           end.
  repeat match goal with
         | H : item_matches _ _ |- _ => inversion H; clear H; subst
         end.
  exists g2. cbn [concat nth]. rewrite app_nil_r.
  split; [assumption|]. split; [assumption|].
  split; [reflexivity|]. split; [reflexivity|].
  exists a, r. unfold import_line. now rewrite <- !app_assoc.
Qed.

Lemma import_line_cons names : exists o old, import_line names = o :: old.
Proof. unfold import_line. eexists _, _. reflexivity. Qed.

(** What the insertion does: the text is cut at the occurrences of one
    import line, and put together again with the line that has
    [, useCallback] after its names. *)
Lemma add_use_callback_import_cases content :
  add_use_callback_import content = content
  \/ exists names segs,
       names <> [] /\ ~ In close_brace names
       /\ (2 <= length segs)%nat
       /\ content = Py.join (import_line names) segs
       /\ add_use_callback_import content
          = Py.join (import_line (names ++ txt ", useCallback")) segs.
Proof.
  unfold add_use_callback_import.
  destruct (Py.contains (txt "useCallback") content); [now left|].
  destruct (Re.search react_import_pattern content) as [m|] eqn:S;
    [|now left].
  destruct (import_search_shape _ _ S) as (names & Hne & Hn & -> & -> & Ho).
  destruct (negb _); [|now left].
  right. exists names.
  destruct (import_line_cons names) as (o & old & E).
  fold (import_line (names ++ txt ", useCallback")).
  rewrite E in *.
  destruct (replace_as_join o old
              (import_line (names ++ txt ", useCallback"))
              (length content) content (le_n _))
    as (segs & _ & Hs & Hrep & Hlen).
  exists segs. repeat split; auto.
Qed.

Lemma import_line_has_symbol names :
  occurs (txt "useCallback") (import_line (names ++ txt ", useCallback")).
Proof.
  unfold import_line.
  exists (txt "import React, { " ++ names ++ txt ", "), (txt " } from 'react';").
  now rewrite <- !app_assoc.
Qed.

(** C7.  A text in which [useCallback] occurs anywhere is returned as it
    is, and applying [add_use_callback_import] to its own result changes
    nothing: the symbol is not inserted a second time. *)
Theorem C7_import_present_is_noop (content : text) :
  (occurs (txt "useCallback") content ->
   add_use_callback_import content = content)
  /\ add_use_callback_import (add_use_callback_import content)
     = add_use_callback_import content.
Proof.
  assert (H1 : forall c, occurs (txt "useCallback") c ->
                         add_use_callback_import c = c).
  { intros c H. apply contains_true in H.
    unfold add_use_callback_import. now rewrite H. }
  split; [apply H1|].
  destruct (add_use_callback_import_cases content)
    as [E | (names & segs & _ & _ & Hlen & _ & E)].
  - now rewrite !E.
  - apply H1. rewrite E.
    apply (occurs_join_r _ _ _ Hlen), import_line_has_symbol.
Qed.

Lemma C7_import_present_witness :
  add_use_callback_import
    (txt "import React, { useState, useCallback } from 'react';")
  = txt "import React, { useState, useCallback } from 'react';".
Proof.
  apply (proj1 (C7_import_present_is_noop
           (txt "import React, { useState, useCallback } from 'react';"))).
  apply contains_true. vm_compute. reflexivity.
Defined.

(** C10.  Either the text is returned unchanged, or there is a non-empty
    list of names without closing brace such that the text is made of
    pieces separated by the line [import React, { <names> } from 'react';]
    and the result has the same pieces separated by
    [import React, { <names>, useCallback } from 'react';]: only that line
    is rewritten, its names are kept in order, and all other text stays.
    When no line of that shape occurs, the text is returned unchanged. *)
Theorem C10_import_rewrites_only_the_import_line (content : text) :
  (add_use_callback_import content = content
   \/ exists names segs,
        names <> [] /\ ~ In close_brace names
        /\ ~ occurs (txt "useCallback") content
        /\ (2 <= length segs)%nat
        /\ content = Py.join (import_line names) segs
        /\ add_use_callback_import content
           = Py.join (import_line (names ++ txt ", useCallback")) segs)
  /\ ((forall names, names <> [] -> ~ In close_brace names ->
                     ~ occurs (import_line names) content) ->
      add_use_callback_import content = content).
Proof.
  split.
  - destruct (Py.contains (txt "useCallback") content) eqn:C.
    + left. unfold add_use_callback_import. now rewrite C.
    + apply contains_false in C.
      destruct (add_use_callback_import_cases content)
        as [E | (names & segs & H)]; [now left|].
      right. exists names, segs. tauto.
  - intros H.
    destruct (add_use_callback_import_cases content)
      as [E | (names & segs & Hne & Hn & Hlen & Hs & _)]; [exact E|].
    exfalso. apply (H names Hne Hn). rewrite Hs.
    now apply occurs_join_sep.
Qed.

Lemma C10_no_import_line_witness :
  add_use_callback_import (txt "import { useState } from 'react';")
  = txt "import { useState } from 'react';".
Proof.
  apply (proj2 (C10_import_rewrites_only_the_import_line
           (txt "import { useState } from 'react';"))).
  intros names _ _ H.
  assert (Ho : occurs (txt "import React") (import_line names)).
  { exists [], (txt ", { " ++ names ++ txt " } from 'react';"). reflexivity. }
  pose proof (occurs_trans _ _ _ Ho H) as Hc.
  apply contains_true in Hc. vm_compute in Hc. discriminate.
Defined.

Example add_use_callback_import_inserts :
  add_use_callback_import
    (txt "import React, { useState, useEffect } from 'react';")
  = txt "import React, { useState, useEffect, useCallback } from 'react';".
Proof. vm_compute. reflexivity. Qed.

(** ** [add_deps_to_useeffect] *)

Lemma replace_hit' old new r : old <> [] ->
  Py.replace (old ++ r) old new = new ++ Py.replace r old new.
Proof. destruct old; [congruence|]. intros _. apply replace_hit. Qed.

Lemma replace_absent' old new s : old <> [] ->
  ~ occurs old s -> Py.replace s old new = s.
Proof. destruct old; [congruence|]. intros _. apply replace_absent. Qed.

Lemma replace_no_start' old new pre rest : old <> [] ->
  no_start old pre rest ->
  Py.replace (pre ++ rest) old new = pre ++ Py.replace rest old new.
Proof. destruct old; [congruence|]. intros _. apply replace_no_start. Qed.

Lemma find_no_start sub pre rest : forall i, 0 <= i ->
  Py.find_from sub (pre ++ rest) i = i + Z.of_nat (length pre) ->
  no_start sub pre rest.
Proof.
  induction pre as [|c pre IH]; intros i Hi H; [exact I|].
  cbn [app Py.find_from length no_start] in *.
  destruct (Py.starts_with sub (c :: pre ++ rest)) eqn:E; [lia|].
  split; [reflexivity|]. apply (IH (i + 1)); lia.
Qed.

Lemma starts_with_app_l a b s :
  Py.starts_with (a ++ b) s = true -> Py.starts_with a s = true.
Proof.
  intros H. apply starts_with_true in H. destruct H as [r ->].
  rewrite <- app_assoc. apply starts_with_app.
Qed.

Lemma no_start_longer a b pre rest :
  no_start a pre rest -> no_start (a ++ b) pre rest.
Proof.
  induction pre as [|c pre IH]; intros H; [exact I|].
  destruct H as [H1 H2]. split; [|now apply IH].
  destruct (Py.starts_with (a ++ b) ((c :: pre) ++ rest)) eqn:E;
    [|reflexivity].
  apply starts_with_app_l in E. congruence.
Qed.

Lemma no_start_head o old pre rest :
  ~ In o pre -> no_start (o :: old) pre rest.
Proof.
  induction pre as [|c pre IH]; intros H; [exact I|].
  split; [|apply IH; intros Hx; apply H; now right].
  cbn [app Py.starts_with].
  replace (ascii_eqb o c) with false; [reflexivity|].
  symmetry. apply ascii_eqb_false. intros ->. apply H. now left.
Qed.

Lemma not_occurs_longer a b s : ~ occurs a s -> ~ occurs (a ++ b) s.
Proof.
  intros H [x [y ->]]. apply H. exists x, (b ++ y).
  now rewrite <- !app_assoc.
Qed.

Lemma split_at_first (c : ascii) : forall x y r1 r2 : text,
  ~ In c x -> ~ In c y -> x ++ c :: r1 = y ++ c :: r2 -> x = y /\ r1 = r2.
Proof.
  induction x as [|a x IH]; intros [|b y] r1 r2 Hx Hy E; cbn [app] in E.
  - injection E as ->. now split.
  - injection E as <- _. exfalso. apply Hy. now left.
  - injection E as -> _. exfalso. apply Hx. now left.
  - injection E as -> E.
    destruct (IH y r1 r2) as [-> ->]; auto.
    + intros H. apply Hx. now right.
    + intros H. apply Hy. now right.
Qed.

Lemma plain_name_chars func_name c :
  plain_name func_name = true -> word_char c = false -> ~ In c func_name.
Proof.
  unfold plain_name. rewrite forallb_forall. intros H Hc Hin.
  apply H in Hin. congruence.
Qed.

Lemma effect_match_needs_anchor func_name s :
  Py.starts_with effect_anchor s = false ->
  Re.match_here (effect_pattern func_name) s = None.
Proof.
  intros H. unfold effect_pattern. cbn [Re.match_here].
  fold effect_anchor. now rewrite H.
Qed.

(** What a match of the effect pattern looks like. *)
Lemma effect_match_shape func_name s gs :
  Re.match_here (effect_pattern func_name) s = Some gs ->
  exists g1 g2 g3 r,
    ~ In close_brace g1 /\ ~ In close_brace g2 /\ ~ In close_bracket g3
    /\ concat gs = effect_block func_name g1 g2 g3
    /\ s = effect_block func_name g1 g2 g3 ++ r.
Proof.
  intros H. apply match_here_sound in H. destruct H as [HF [r Hr]].
  unfold effect_pattern in HF.
  inversion HF as [|i1 x1 p1 l1 M1 F1]; subst; clear HF.
  inversion F1 as [|i2 x2 p2 l2 M2 F2]; subst; clear F1.
  inversion F2 as [|i3 x3 p3 l3 M3 F3]; subst; clear F2.
  inversion F3 as [|i4 x4 p4 l4 M4 F4]; subst; clear F3.
  inversion F4 as [|i5 x5 p5 l5 M5 F5]; subst; clear F4.
  inversion F5 as [|i6 x6 p6 l6 M6 F6]; subst; clear F5.
  inversion F6 as [|i7 x7 p7 l7 M7 F7]; subst; clear F6.
  inversion F7; subst; clear F7.
  inversion M1; subst; clear M1. inversion M2; subst; clear M2.
  inversion M3; subst; clear M3. inversion M4; subst; clear M4.
  inversion M5; subst; clear M5. inversion M6; subst; clear M6.
  inversion M7; subst; clear M7.
  exists x2, x4, x6, r.
  assert (E : concat
                [txt "useEffect(() => {"; x2; func_name ++ txt "();"; x4;
                 txt "}, ["; x6; txt "]);"]
              = effect_block func_name x2 x4 x6).
  { unfold effect_block, effect_anchor. cbn [concat].
    now rewrite app_nil_r, <- !app_assoc. }
  rewrite <- E. repeat split; assumption.
Qed.

(** No match of the effect pattern is empty, as [finditer] above takes
    for granted. *)
Lemma effect_match_not_empty func_name s gs :
  Re.match_here (effect_pattern func_name) s = Some gs -> concat gs <> [].
Proof.
  intros H. apply effect_match_shape in H.
  destruct H as (g1 & g2 & g3 & r & _ & _ & _ & -> & _). discriminate.
Qed.

Lemma effect_block_matches func_name g1 g2 g3 :
  ~ In close_brace g1 -> ~ In close_brace g2 -> ~ In close_bracket g3 ->
  Forall2 item_matches (effect_pattern func_name)
    [txt "useEffect(() => {"; g1; func_name ++ txt "();"; g2;
     txt "}, ["; g3; txt "]);"].
Proof.
  intros H1 H2 H3. unfold effect_pattern.
  repeat (constructor; try assumption).
Qed.

Lemma finditer_skip_skipn p : forall s i k,
  Re.finditer_skip p s i k
  = Re.finditer_skip p (skipn k s) (i + Z.of_nat k) 0.
Proof.
  induction s as [|c s IH]; intros i [|k].
  - reflexivity.
  - reflexivity.
  - cbn [skipn]. f_equal. simpl. lia.
  - cbn [Re.finditer_skip skipn]. rewrite IH. f_equal. lia.
Qed.

Lemma finditer_skip_no_start func_name pre rest : forall i,
  no_start effect_anchor pre rest ->
  Re.finditer_skip (effect_pattern func_name) (pre ++ rest) i 0
  = Re.finditer_skip (effect_pattern func_name) rest
      (i + Z.of_nat (length pre)) 0.
Proof.
  induction pre as [|c pre IH]; intros i H.
  - cbn [app length]. f_equal. simpl. lia.
  - destruct H as [H1 H2]. cbn [app Re.finditer_skip].
    cbn [app] in H1. rewrite (effect_match_needs_anchor _ _ H1).
    rewrite IH by exact H2. f_equal. cbn [length]. lia.
Qed.

Lemma not_occurs_suffix sub a b :
  ~ occurs sub (a ++ b) -> Py.starts_with sub b = false.
Proof.
  intros H. destruct (Py.starts_with sub b) eqn:E; [|reflexivity].
  apply starts_with_true in E. destruct E as [r ->].
  exfalso. apply H. now exists a, r.
Qed.

Lemma search_deps_no_start pre rest : forall i,
  ~ In open_bracket pre ->
  Re.search_from deps_pattern (pre ++ rest) i
  = Re.search_from deps_pattern rest (i + Z.of_nat (length pre)).
Proof.
  induction pre as [|c pre IH]; intros i H.
  - cbn [app length]. f_equal. simpl. lia.
  - cbn [app Re.search_from].
    assert (E : ascii_eqb open_bracket c = false).
    { apply ascii_eqb_false. intros <-. apply H. now left. }
    unfold deps_pattern at 1. cbn [Re.match_here].
    change (txt "[") with [open_bracket]. cbn [Py.starts_with].
    rewrite E. cbn [andb]. rewrite IH.
    + f_equal. cbn [length]. lia.
    + intros Hx. apply H. now right.
Qed.

Lemma deps_match_here deps rest :
  ~ In close_bracket deps ->
  Re.match_here deps_pattern (open_bracket :: deps ++ close_bracket :: rest)
  = Some [txt "["; deps; txt "]"].
Proof.
  intros H. unfold deps_pattern. cbn [Re.match_here].
  change (txt "[") with [open_bracket]. cbn [Py.starts_with length skipn].
  rewrite ascii_eqb_refl. cbn [andb].
  rewrite (many_not_upto _ _ _ _ [txt "]"] H); [reflexivity|].
  cbn [Re.match_here]. change (txt "]") with [close_bracket].
  cbn [Py.starts_with]. now rewrite ascii_eqb_refl.
Qed.

(** *** One effect of the fixed shape *)

Section FixedShape.

Variables func_name b1 b2 deps : text.

Hypothesis name_plain : plain_name func_name = true.
Hypothesis body_brace1 : ~ In close_brace b1.
Hypothesis body_brace2 : ~ In close_brace b2.
Hypothesis body_bracket1 : ~ In open_bracket b1.
Hypothesis body_bracket2 : ~ In open_bracket b2.
Hypothesis deps_bracket : ~ In close_bracket deps.

Let block : text := effect_block func_name b1 b2 deps.

Lemma effect_block_not_nil : block <> [].
Proof. discriminate. Qed.

Lemma call_no_brace : ~ In close_brace (func_name ++ txt "();").
Proof.
  rewrite in_app_iff. intros [H|H].
  - now apply (plain_name_chars _ _ name_plain) in H.
  - vm_compute in H. intuition discriminate.
Qed.

(** The pattern matches at the start of the effect, and whatever call in
    the body the backtracking settles on, the match is the whole
    effect. *)
Lemma effect_match_block post :
  exists gs,
    Re.match_here (effect_pattern func_name) (block ++ post) = Some gs
    /\ concat gs = block.
Proof.
  pose proof call_no_brace as Hcall.
  destruct (Re.match_here (effect_pattern func_name) (block ++ post))
    as [gs|] eqn:M.
  - exists gs. split; [reflexivity|].
    apply effect_match_shape in M.
    destruct M as (g1 & g2 & g3 & r & G1 & G2 & G3 & -> & E).
    unfold block, effect_block in E. rewrite <- !app_assoc in E.
    apply app_inv_head in E.
    assert (E' : (b1 ++ func_name ++ txt "();" ++ b2)
                 ++ close_brace :: (txt ", [" ++ deps ++ txt "]);" ++ post)
                 = (g1 ++ func_name ++ txt "();" ++ g2)
                   ++ close_brace :: (txt ", [" ++ g3 ++ txt "]);" ++ r)).
    { rewrite <- !app_assoc. exact E. }
    rewrite in_app_iff in Hcall.
    apply split_at_first in E';
      [|rewrite !in_app_iff; tauto|rewrite !in_app_iff; tauto].
    destruct E' as [E1 E2]. apply app_inv_head in E2.
    apply (split_at_first close_bracket deps g3
             (txt ");" ++ post) (txt ");" ++ r)) in E2;
      [|assumption|assumption].
    destruct E2 as [<- _].
    apply (f_equal (fun l => l ++ txt "}, [" ++ deps ++ txt "]);")) in E1.
    rewrite <- !app_assoc in E1.
    unfold block, effect_block. now rewrite E1.
  - exfalso. revert M.
    pose proof (match_here_complete _ _
                  (effect_block_matches func_name b1 b2 deps
                     body_brace1 body_brace2 deps_bracket) post) as C.
    cbn [concat] in C. rewrite app_nil_r in C.
    unfold block, effect_block, effect_anchor.
    rewrite <- !app_assoc in *. exact C.
Qed.

(** The matches of the effect pattern in a text where the opening of an
    effect occurs first at the start of the effect, and not after it:
    that effect alone. *)
Lemma finditer_single_block pre post :
  no_start effect_anchor pre (block ++ post) ->
  ~ occurs effect_anchor post ->
  exists m,
    Re.finditer (effect_pattern func_name) (pre ++ block ++ post) = [m]
    /\ Re.group0 m = block.
Proof.
  intros Hpre Hpost.
  destruct (effect_match_block post) as (gs & M & Hgs).
  exists {| Re.m_start := 0 + Z.of_nat (length pre); Re.m_parts := gs |}.
  split; [|exact Hgs].
  unfold Re.finditer. rewrite finditer_skip_no_start by exact Hpre.
  pose proof effect_block_not_nil as Hne.
  destruct block as [|c blk]; [congruence|].
  cbn [app Re.finditer_skip]. cbn [app] in M. rewrite M. f_equal.
  rewrite finditer_skip_skipn, Hgs. cbn [length Nat.pred].
  rewrite skipn_app, skipn_all, Nat.sub_diag. cbn [app skipn].
  apply finditer_skip_none. intros a b ->.
  apply effect_match_needs_anchor.
  now apply (not_occurs_suffix _ a).
Qed.

Lemma effect_block_brackets new_deps :
  effect_block func_name b1 b2 new_deps
  = (effect_anchor ++ b1 ++ func_name ++ txt "();" ++ b2 ++ txt "}, ")
    ++ (open_bracket :: new_deps ++ [close_bracket]) ++ txt ");".
Proof.
  unfold effect_block. cbn [app]. rewrite <- !app_assoc. reflexivity.
Qed.

Lemma effect_lead_no_bracket :
  ~ In open_bracket
      (effect_anchor ++ b1 ++ func_name ++ txt "();" ++ b2 ++ txt "}, ").
Proof.
  rewrite !in_app_iff.
  intros [H|[H|[H|[H|[H|H]]]]]; try tauto;
    try (now apply (plain_name_chars _ _ name_plain) in H);
    vm_compute in H; intuition discriminate.
Qed.

(** The first bracketed list of the effect is its dependency list. *)
Lemma search_deps_block :
  exists dm,
    Re.search deps_pattern block = Some dm /\ Re.part 1 dm = deps.
Proof.
  unfold block. rewrite effect_block_brackets. unfold Re.search.
  rewrite search_deps_no_start by apply effect_lead_no_bracket.
  cbn [app]. rewrite <- app_assoc. cbn [app Re.search_from].
  rewrite deps_match_here by exact deps_bracket.
  eexists. split; reflexivity.
Qed.

Lemma replace_deps_in_block new_deps :
  Py.replace block
    (txt "[" ++ deps ++ txt "]") (txt "[" ++ new_deps ++ txt "]")
  = effect_block func_name b1 b2 new_deps.
Proof.
  unfold block. rewrite !effect_block_brackets.
  change (txt "[" ++ deps ++ txt "]")
    with (open_bracket :: deps ++ [close_bracket]).
  change (txt "[" ++ new_deps ++ txt "]")
    with (open_bracket :: new_deps ++ [close_bracket]).
  rewrite replace_no_start
    by (apply no_start_head; apply effect_lead_no_bracket).
  rewrite replace_hit. rewrite replace_absent; [reflexivity|].
  intros Ho. apply (occurs_In _ _ open_bracket) in Ho; [|now left].
  vm_compute in Ho. intuition discriminate.
Qed.

(** What the loop body does with the match of the effect, for a list
    text without white space around it in which the name does not
    occur. *)
Lemma patch_match_block content m :
  Re.group0 m = block ->
  Py.strip deps = deps ->
  Py.contains func_name deps = false ->
  patch_match func_name content m
  = Py.replace content block
      (effect_block func_name b1 b2 (appended_deps deps func_name)).
Proof.
  intros Hg Hstrip Habsent. unfold patch_match. rewrite Hg.
  destruct search_deps_block as (dm & -> & ->).
  rewrite Hstrip, Habsent. cbn [negb].
  fold (appended_deps deps func_name).
  now rewrite replace_deps_in_block.
Qed.

End FixedShape.

Example add_deps_inside_a_component :
  add_deps_to_useeffect
    (txt "function Card() { useEffect(() => { loadX(); }, []); return null; }")
    (txt "loadX")
  = txt "function Card() { useEffect(() => { loadX(); }, [loadX]); return null; }".
Proof. vm_compute. reflexivity. Qed.

Example add_deps_substring_of_listed_name :
  add_deps_to_useeffect (txt "useEffect(() => { loadX(); }, [loadXY]);")
    (txt "loadX")
  = txt "useEffect(() => { loadX(); }, [loadXY]);".
Proof. vm_compute. reflexivity. Qed.


Lemma take_until_prefix c x z :
  ~ In c x -> exists y, take_until c (x ++ z) = x ++ y.
Proof.
  induction x as [|a x IH]; intros H; cbn [app take_until].
  - now exists (take_until c z).
  - assert (E : ascii_eqb a c = false).
    { apply ascii_eqb_false. intros ->. apply H. now left. }
    rewrite E. destruct IH as [y Hy]; [intros Hx; apply H; now right|].
    exists y. now rewrite Hy.
Qed.

(** The check [no_plain_call] decides the premise of the claim below. *)
Lemma no_plain_call_sound call : ~ In close_brace call ->
  forall pre content body rest,
    no_plain_call call content = true ->
    content = pre ++ effect_anchor ++ body ++ call ++ rest ->
    In close_brace body.
Proof.
  intros Hcall. induction pre as [|x pre IH]; intros content body rest Hc E.
  - cbn [app] in E.
    destruct content as [|a s]; [discriminate E|].
    cbn [no_plain_call] in Hc. apply andb_true_iff in Hc.
    destruct Hc as [Hc _]. rewrite E in Hc.
    rewrite starts_with_app, skipn_app, skipn_all, Nat.sub_diag in Hc.
    cbn [skipn app] in Hc.
    destruct (in_dec ascii_dec close_brace body) as [Hin|Hout];
      [exact Hin|exfalso].
    destruct (take_until_prefix close_brace (body ++ call) rest) as [y Hy].
    { rewrite in_app_iff. tauto. }
    rewrite <- app_assoc in Hy. rewrite Hy in Hc.
    apply negb_true_iff, contains_false in Hc. apply Hc.
    exists body, y. now rewrite <- app_assoc.
  - destruct content as [|a s]; [discriminate E|].
    injection E as -> E. cbn [no_plain_call] in Hc.
    apply andb_true_iff in Hc. destruct Hc as [_ Hc].
    exact (IH _ _ _ Hc E).
Qed.

(** Every function name of [FIXES] is made of word characters, so that the
    effect pattern is the one [re] compiles for it. *)
Lemma FIXES_names_plain :
  Forall (fun entry =>
            Forall (fun fx => plain_name (fix_name fx) = true) (snd entry))
    FIXES.
Proof. repeat constructor. Qed.

(** C9.  Only effects of the fixed shape
    [useEffect(() => { ... func_name(); ... }, [...]);], with no closing
    brace in the body, are patched: a text in which none occurs is
    returned unchanged.  So is, in particular, a text in which wherever an
    effect opens and a call [func_name();] comes later there is a closing
    brace between them -- the call sits after a nested block, or there is
    no such call at all.  The name is made of word characters, as
    function names are. *)
Theorem C9_only_fixed_shape_effects_are_patched
    (content func_name : text)
    (Hname : plain_name func_name = true)
    (Hshape : ~ has_fixed_shape_effect func_name content
              \/ (forall pre body rest,
                     content = pre ++ effect_anchor ++ body
                               ++ (func_name ++ txt "();") ++ rest ->
                     In close_brace body)) :
  add_deps_to_useeffect content func_name = content.
Proof.
  unfold add_deps_to_useeffect, Re.finditer.
  rewrite finditer_skip_none; [reflexivity|].
  intros a b ->.
  destruct (Re.match_here (effect_pattern func_name) b) as [gs|] eqn:M;
    [exfalso|reflexivity].
  apply effect_match_shape in M.
  destruct M as (g1 & g2 & g3 & r & G1 & G2 & G3 & _ & ->).
  destruct Hshape as [Hnone|Hbody].
  - apply Hnone. now exists a, g1, g2, g3, r.
  - apply G1.
    apply (Hbody a g1 (g2 ++ txt "}, [" ++ g3 ++ txt "]);" ++ r)).
    unfold effect_block. now rewrite <- !app_assoc.
Qed.

Lemma C9_nested_block_witness :
  add_deps_to_useeffect
    (txt "useEffect(() => { if (ok) { a(); } loadX(); }, [userId]);")
    (txt "loadX")
  = txt "useEffect(() => { if (ok) { a(); } loadX(); }, [userId]);".
Proof.
  apply C9_only_fixed_shape_effects_are_patched; [reflexivity|].
  right. intros pre body rest E.
  apply (no_plain_call_sound (txt "loadX" ++ txt "();")) with (3 := E).
  - not_in_literal.
  - vm_compute. reflexivity.
Defined.

Example add_deps_call_with_argument_unchanged :
  add_deps_to_useeffect
    (txt "useEffect(() => { loadX(userId); }, [userId]);") (txt "loadX")
  = txt "useEffect(() => { loadX(userId); }, [userId]);".
Proof. vm_compute. reflexivity. Qed.

(** C4 (the code departs from the claim).  On a text with an effect
    nested in the body of another one after an indexed access, applying
    [add_deps_to_useeffect] twice does not give the text of one
    application: the first application patches the inner list and leaves
    [y[k]], and the second one, which takes the first bracket of the outer
    match for its dependency list, turns [y[k]] into [y[k, loadX]]. *)
Theorem C4_second_application_changes_text :
  add_deps_to_useeffect
    (txt "useEffect(() => { loadX(); }, [a]); useEffect(() => { y[k]; useEffect(() => { loadX(); }, [a]); }, [k]);")
    (txt "loadX")
  = txt "useEffect(() => { loadX(); }, [a, loadX]); useEffect(() => { y[k]; useEffect(() => { loadX(); }, [a, loadX]); }, [k]);"
  /\ add_deps_to_useeffect
       (txt "useEffect(() => { loadX(); }, [a, loadX]); useEffect(() => { y[k]; useEffect(() => { loadX(); }, [a, loadX]); }, [k]);")
       (txt "loadX")
     = txt "useEffect(() => { loadX(); }, [a, loadX]); useEffect(() => { y[k, loadX]; useEffect(() => { loadX(); }, [a, loadX]); }, [k]);"
  /\ add_deps_to_useeffect
       (add_deps_to_useeffect
          (txt "useEffect(() => { loadX(); }, [a]); useEffect(() => { y[k]; useEffect(() => { loadX(); }, [a]); }, [k]);")
          (txt "loadX"))
       (txt "loadX")
     <> add_deps_to_useeffect
          (txt "useEffect(() => { loadX(); }, [a]); useEffect(() => { y[k]; useEffect(() => { loadX(); }, [a]); }, [k]);")
          (txt "loadX").
Proof.
  split; [vm_compute; reflexivity|].
  split; [vm_compute; reflexivity|].
  vm_compute. discriminate.
Qed.

(** * Further properties of the code *)

(** ** The brace scan, when it finds a brace *)

Lemma scan_braces_found chars : forall i bc inf e r,
  scan_braces chars i bc inf e = r -> r <> e ->
  exists p rest,
    chars = p ++ close_brace :: rest
    /\ r = i + Z.of_nat (length p) + 1
    /\ (inf = true \/ In open_brace p)
    /\ bc + brace_depth p = 1
    /\ (forall p' rest', p = p' ++ close_brace :: rest' ->
          inf = true \/ In open_brace p' -> bc + brace_depth p' <> 1).
Proof.
  induction chars as [|c chars IH]; intros i bc inf e r H Hr;
    cbn [scan_braces] in H; [congruence|].
  destruct (ascii_eqb c open_brace) eqn:E1.
  - apply ascii_eqb_true in E1. subst c.
    destruct (IH _ _ _ _ _ H Hr) as (p & rest & -> & Hlen & _ & Hd & Hmin).
    exists (open_brace :: p), rest. rewrite brace_depth_cons, ascii_eqb_refl.
    replace (ascii_eqb open_brace close_brace) with false by reflexivity.
    repeat split.
    + cbn [length]. lia.
    + right. now left.
    + lia.
    + intros [|x p'] rest' Ep Hin; [discriminate Ep|].
      injection Ep as <- Ep. rewrite brace_depth_cons, ascii_eqb_refl.
      replace (ascii_eqb open_brace close_brace) with false by reflexivity.
      specialize (Hmin p' rest' Ep (or_introl eq_refl)). lia.
  - destruct (ascii_eqb c close_brace) eqn:E2.
    + apply ascii_eqb_true in E2. subst c.
      destruct (inf && (bc - 1 =? 0)) eqn:Hstop.
      * apply andb_true_iff in Hstop. destruct Hstop as [Hinf Hz].
        apply Z.eqb_eq in Hz.
        exists [], chars. repeat split.
        -- cbn [length]. lia.
        -- now left.
        -- unfold brace_depth. simpl. lia.
        -- intros [|x p'] rest' Ep; discriminate Ep.
      * destruct (IH _ _ _ _ _ H Hr)
          as (p & rest & -> & Hlen & Hin & Hd & Hmin).
        exists (close_brace :: p), rest.
        rewrite brace_depth_cons, E1, ascii_eqb_refl. repeat split.
        -- cbn [length]. lia.
        -- destruct Hin as [Hin|Hin]; [now left|right; now right].
        -- lia.
        -- intros [|x p'] rest' Ep Hin'.
           ++ destruct Hin' as [Hin'|[]]. subst inf. cbn [andb] in Hstop.
              apply Z.eqb_neq in Hstop. unfold brace_depth. simpl. lia.
           ++ injection Ep as <- Ep.
              rewrite brace_depth_cons, E1, ascii_eqb_refl.
              assert (Hc : inf = true \/ In open_brace p').
              { destruct Hin' as [Hin'|[Hin'|Hin']];
                  [now left|discriminate Hin'|now right]. }
              specialize (Hmin p' rest' Ep Hc). lia.
    + destruct (IH _ _ _ _ _ H Hr)
        as (p & rest & -> & Hlen & Hin & Hd & Hmin).
      exists (c :: p), rest. rewrite brace_depth_cons, E1, E2. repeat split.
      * cbn [length]. lia.
      * destruct Hin as [Hin|Hin]; [now left|right; now right].
      * lia.
      * intros [|x p'] rest' Ep Hin'.
        -- injection Ep as -> _. now rewrite ascii_eqb_refl in E2.
        -- injection Ep as <- Ep. rewrite brace_depth_cons, E1, E2.
           assert (Hc : inf = true \/ In open_brace p').
           { destruct Hin' as [Hin'|[Hin'|Hin']]; [now left| |now right].
             apply ascii_eqb_false in E1. congruence. }
           specialize (Hmin p' rest' Ep Hc). lia.
Qed.

(** X1.  An offset returned by the scan is the offset of a closing brace
    of the text, at or after the scan start; between the start and that
    brace a brace was opened, the braces opened are one more than the
    braces closed, and no earlier closing brace had brought the depth back
    to zero. *)
Theorem scan_result_is_first_return_to_zero
    (content : text) (start_idx j : Z)
    (Hstart : 0 <= start_idx)
    (Hfound : find_matching_close content start_idx = Some j) :
  exists p rest,
    skipn (Z.to_nat start_idx) content = p ++ close_brace :: rest
    /\ j = start_idx + Z.of_nat (length p)
    /\ In open_brace p
    /\ brace_depth p = 1
    /\ never_closes p.
Proof.
  unfold find_matching_close in Hfound.
  destruct (closing_end content start_idx <=? start_idx) eqn:E;
    [discriminate|].
  injection Hfound as <-. apply Z.leb_gt in E.
  unfold closing_end in *.
  destruct (scan_braces_found _ _ _ _ _ _ eq_refl
              (not_eq_sym (Z.lt_neq _ _ E)))
    as (p & rest & Hs & Hlen & Hin & Hd & Hmin).
  exists p, rest. rewrite Hlen. repeat split.
  - exact Hs.
  - lia.
  - destruct Hin as [Hin|Hin]; [discriminate Hin|exact Hin].
  - lia.
  - intros p' rest' Ep Hin'.
    specialize (Hmin p' rest' Ep (or_intror Hin')). lia.
Qed.

Lemma scan_result_witness :
  exists p rest,
    skipn (Z.to_nat 0) (txt "{ a { b } c }") = p ++ close_brace :: rest
    /\ 12 = 0 + Z.of_nat (length p)
    /\ In open_brace p
    /\ brace_depth p = 1
    /\ never_closes p.
Proof.
  apply (scan_result_is_first_return_to_zero (txt "{ a { b } c }") 0 12).
  - lia.
  - vm_compute. reflexivity.
Defined.

(** ** Slices and [find] at a known place *)

Lemma clamp_inside i len : 0 <= i <= len -> Py.clamp i len = i.
Proof.
  intros H. unfold Py.clamp.
  replace (i <? 0) with false by (symmetry; apply Z.ltb_ge; lia). lia.
Qed.

Lemma slice_to_app (a b : text) :
  Py.slice_to (Z.of_nat (length a)) (a ++ b) = a.
Proof.
  unfold Py.slice_to. rewrite clamp_inside by (rewrite length_app; lia).
  rewrite Nat2Z.id, firstn_app, firstn_all, Nat.sub_diag.
  cbn [firstn]. apply app_nil_r.
Qed.

Lemma slice_from_app (a b : text) :
  Py.slice_from (Z.of_nat (length a)) (a ++ b) = b.
Proof.
  unfold Py.slice_from. rewrite clamp_inside by (rewrite length_app; lia).
  now rewrite Nat2Z.id, skipn_app, skipn_all, Nat.sub_diag.
Qed.

Lemma slice_middle (a b c : text) :
  Py.slice (Z.of_nat (length a)) (Z.of_nat (length a + length b))
    (a ++ b ++ c) = b.
Proof.
  unfold Py.slice. cbv zeta.
  rewrite !clamp_inside by (rewrite !length_app; lia).
  rewrite Nat2Z.id, skipn_app, skipn_all, Nat.sub_diag. cbn [skipn app].
  replace (Z.to_nat (Z.of_nat (length a + length b) - Z.of_nat (length a)))
    with (length b) by lia.
  rewrite firstn_app, firstn_all, Nat.sub_diag. cbn [firstn].
  apply app_nil_r.
Qed.

Lemma find_from_at sub pre r : forall i,
  no_start sub pre (sub ++ r) ->
  Py.find_from sub (pre ++ sub ++ r) i = i + Z.of_nat (length pre).
Proof.
  induction pre as [|c pre IH]; intros i H.
  - cbn [app length]. destruct (sub ++ r) as [|x l] eqn:E.
    + destruct sub; [|discriminate E]. cbn. lia.
    + cbn [Py.find_from]. rewrite <- E, starts_with_app. lia.
  - destruct H as [H1 H2]. cbn [app Py.find_from] in *. rewrite H1.
    rewrite IH by exact H2. cbn [length]. lia.
Qed.

Lemma find_from_bounds sub s : forall i,
  Py.find_from sub s i = -1
  \/ i <= Py.find_from sub s i <= i + Z.of_nat (length s).
Proof.
  induction s as [|c s IH]; intros i; cbn [Py.find_from length].
  - destruct (Py.starts_with sub []); [right; lia|now left].
  - destruct (Py.starts_with sub (c :: s)); [right; lia|].
    destruct (IH (i + 1)) as [H|H]; [now left|right; lia].
Qed.

Lemma no_start_app sub p1 p2 rest :
  no_start sub p1 (p2 ++ rest) -> no_start sub p2 rest ->
  no_start sub (p1 ++ p2) rest.
Proof.
  induction p1 as [|c p1 IH]; intros H1 H2; [exact H2|].
  destruct H1 as [Ha Hb]. cbn [app no_start]. rewrite <- !app_assoc in *.
  split; [exact Ha|]. now apply IH.
Qed.

Lemma past_semicolon_find s : forall i,
  match past_semicolon s with
  | Some r =>
      exists k, Py.find_from (txt ";") s i = i + Z.of_nat k
                /\ (k < length s)%nat /\ skipn (S k) s = r
  | None => Py.find_from (txt ";") s i = -1
  end.
Proof.
  induction s as [|c s IH]; intros i; [reflexivity|].
  cbn [past_semicolon Py.find_from].
  change (Py.starts_with (txt ";") (c :: s))
    with (ascii_eqb ";"%char c && true).
  destruct (ascii_eqb c ";"%char) eqn:E.
  - apply ascii_eqb_true in E. subst c. rewrite ascii_eqb_refl. cbn [andb].
    exists 0%nat. repeat split; cbn [length]; lia.
  - assert (E' : ascii_eqb ";"%char c = false).
    { apply ascii_eqb_false. apply ascii_eqb_false in E. congruence. }
    rewrite E'. cbn [andb]. specialize (IH (i + 1)).
    destruct (past_semicolon s) as [r|]; [|exact IH].
    destruct IH as (k & Hk & Hlen & Hr).
    exists (S k). repeat split; cbn [length]; try lia. exact Hr.
Qed.

(** What lines 114-117 keep of the text after the closing brace. *)
Lemma after_semicolon (after : text) :
  (if negb (Py.find (txt ";") after =? -1)
   then Py.slice_from (Py.find (txt ";") after + 1) after
   else after)
  = match past_semicolon after with Some r => r | None => after end.
Proof.
  unfold Py.find. pose proof (past_semicolon_find after 0) as H.
  destruct (past_semicolon after) as [r|].
  - destruct H as (k & -> & Hlen & <-).
    replace (0 + Z.of_nat k =? -1) with false
      by (symmetry; apply Z.eqb_neq; lia).
    cbn [negb]. unfold Py.slice_from.
    rewrite clamp_inside by lia. f_equal. lia.
  - now rewrite H.
Qed.

(** ** [wrap_function_with_callback], past the anchor test *)

Section PlainDeclaration.

Variables func_name inner : text.

Hypothesis name_plain : plain_name func_name = true.
Hypothesis inner_balanced : balanced inner.

Let lead : text := txt "const " ++ func_name ++ txt " = async () => ".
Let body : text := open_brace :: inner ++ [close_brace].

Lemma plain_declaration_split :
  plain_declaration func_name inner = lead ++ body.
Proof.
  unfold plain_declaration, lead, body. rewrite <- !app_assoc. reflexivity.
Qed.

Lemma lead_no_brace : ~ In open_brace lead /\ ~ In close_brace lead.
Proof.
  unfold lead. rewrite !in_app_iff. split; intros [H|[H|H]];
    try (now apply (plain_name_chars _ _ name_plain) in H);
    vm_compute in H; intuition discriminate.
Qed.

(** The scan from the start of the declaration ends after its closing
    brace. *)
Lemma closing_end_declaration before after :
  closing_end (before ++ plain_declaration func_name inner ++ after)
    (Z.of_nat (length before))
  = Z.of_nat (length before + length (plain_declaration func_name inner)).
Proof.
  destruct lead_no_brace as [Ho Hc].
  unfold closing_end.
  rewrite Nat2Z.id, skipn_app, skipn_all, Nat.sub_diag. cbn [skipn app].
  rewrite plain_declaration_split. unfold body. rewrite <- !app_assoc.
  rewrite scan_braces_plain by assumption.
  cbn [app scan_braces]. rewrite ascii_eqb_refl. rewrite <- app_assoc.
  rewrite scan_braces_balanced by (assumption || lia).
  cbn [app scan_braces].
  replace (ascii_eqb close_brace open_brace) with false by reflexivity.
  rewrite ascii_eqb_refl.
  replace (0 + 1 - 1 =? 0) with true by reflexivity. cbn [andb].
  rewrite !length_app. cbn [length]. rewrite length_app. cbn [length]. lia.
Qed.

(** The arrow of the declaration is the first [=> {] in it. *)
Lemma find_arrow_in_declaration :
  Py.find (txt "=> {") (plain_declaration func_name inner)
  = Z.of_nat (length lead) - 3.
Proof.
  assert (E : plain_declaration func_name inner
              = ((txt "const " ++ func_name ++ txt " ")
                 ++ txt "= async () ")
                ++ txt "=> {" ++ inner ++ txt "}").
  { unfold plain_declaration. rewrite <- !app_assoc. reflexivity. }
  rewrite E. unfold Py.find. rewrite find_from_at.
  - unfold lead. rewrite !length_app. cbn [length txt list_ascii_of_string].
    lia.
  - apply no_start_app.
    + apply no_start_head. rewrite !in_app_iff. intros [H|[H|H]];
        try (now apply (plain_name_chars _ _ name_plain) in H);
        vm_compute in H; intuition discriminate.
    + cbv. repeat split.
Qed.

Lemma body_of_declaration :
  Py.slice_from
    (Py.find (txt "=> {") (plain_declaration func_name inner) + 3)
    (plain_declaration func_name inner)
  = body.
Proof.
  rewrite find_arrow_in_declaration.
  replace (Z.of_nat (length lead) - 3 + 3) with (Z.of_nat (length lead))
    by lia.
  rewrite plain_declaration_split. apply slice_from_app.
Qed.

End PlainDeclaration.

(** X2.  When the anchor test passes and the first
    [const func_name = async] of the text begins a declaration
    [const func_name = async () => { inner }] with balanced braces, the
    declaration becomes
    [const func_name = useCallback(async () => { inner }, [deps]);]: the
    text before it is kept, the body is kept, and so is the text after the
    first semicolon that follows the closing brace -- what stands between
    that brace and the semicolon is dropped (all of the text after the
    brace is kept when it has no semicolon). *)
Theorem wrap_rewrites_first_declaration
    (before after inner func_name : text) (deps : list text)
    (Hname : plain_name func_name = true)
    (Hbal : balanced inner)
    (Hfirst : Py.find (txt "const " ++ func_name ++ txt " = async")
                (before ++ plain_declaration func_name inner ++ after)
              = Z.of_nat (length before))
    (Hraw : Py.contains (anchor_pattern func_name)
              (before ++ plain_declaration func_name inner ++ after)
            = true) :
  wrap_function_with_callback
    (before ++ plain_declaration func_name inner ++ after) func_name deps
  = before ++ wrapped_declaration func_name inner deps
    ++ match past_semicolon after with Some r => r | None => after end.
Proof.
  unfold wrap_function_with_callback. cbv zeta.
  rewrite Hraw, Hfirst. cbn [negb].
  replace (Z.of_nat (length before) =? -1) with false
    by (symmetry; apply Z.eqb_neq; lia).
  rewrite (closing_end_declaration func_name inner Hname Hbal).
  replace (Z.of_nat (length before
                     + length (plain_declaration func_name inner))
           <=? Z.of_nat (length before)) with false
    by (symmetry; apply Z.leb_gt; unfold plain_declaration;
        rewrite length_app; cbn [length txt list_ascii_of_string]; lia).
  rewrite slice_middle, slice_to_app.
  rewrite (body_of_declaration func_name inner Hname).
  assert (Hs : Py.slice_from
                 (Z.of_nat (length before
                            + length (plain_declaration func_name inner)))
                 (before ++ plain_declaration func_name inner ++ after)
               = after).
  { rewrite <- length_app, (app_assoc before). apply slice_from_app. }
  rewrite !Hs, after_semicolon.
  unfold wrapped_declaration.
  do 3 (cbn [app]; rewrite <- ?app_assoc). reflexivity.
Qed.

Lemma wrap_rewrites_witness :
  wrap_function_with_callback
    (txt "let n = 0; const loadX = async () => { if (n) { fetchA(); } } ; // const loadX = async \(\) => \{")
    (txt "loadX") [txt "userId"; txt "n"]
  = txt "let n = 0; const loadX = useCallback(async () => { if (n) { fetchA(); } }, [userId, n]); // const loadX = async \(\) => \{".
Proof.
  apply (wrap_rewrites_first_declaration
           (txt "let n = 0; ")
           (txt " ; // const loadX = async \(\) => \{")
           (txt " if (n) { fetchA(); } ")
           (txt "loadX") [txt "userId"; txt "n"]).
  - reflexivity.
  - repeat (apply balanced_char; [discriminate|discriminate|]).
    apply (balanced_pair (txt " fetchA(); ") (txt " ")).
    + repeat (apply balanced_char; [discriminate|discriminate|]).
      apply balanced_nil.
    + repeat (apply balanced_char; [discriminate|discriminate|]).
      apply balanced_nil.
  - vm_compute. reflexivity.
  - vm_compute. reflexivity.
Defined.

(** X3.  Whatever the text, [wrap_function_with_callback] leaves the
    characters before the first [const func_name = async] as they are. *)
Theorem wrap_keeps_text_before_declaration
    (content func_name : text) (deps : list text) :
  firstn
    (Z.to_nat (Py.find (txt "const " ++ func_name ++ txt " = async") content))
    (wrap_function_with_callback content func_name deps)
  = firstn
      (Z.to_nat (Py.find (txt "const " ++ func_name ++ txt " = async")
                   content))
      content.
Proof.
  unfold wrap_function_with_callback. cbv zeta.
  destruct (negb _); [reflexivity|].
  set (start_idx := Py.find _ content).
  destruct (start_idx =? -1) eqn:E; [reflexivity|].
  destruct (_ <=? start_idx); [reflexivity|].
  apply Z.eqb_neq in E.
  assert (Hb : 0 <= start_idx <= Z.of_nat (length content)).
  { unfold start_idx, Py.find in *.
    destruct (find_from_bounds (txt "const " ++ func_name ++ txt " = async")
                content 0) as [H|H]; lia. }
  unfold Py.slice_to. rewrite clamp_inside by exact Hb.
  rewrite firstn_app, firstn_firstn, Nat.min_id.
  rewrite length_firstn.
  replace (Z.to_nat start_idx
           - Nat.min (Z.to_nat start_idx) (length content))%nat
    with 0%nat by lia.
  cbn [firstn]. apply app_nil_r.
Qed.

(** ** [add_use_callback_import], when a line is there *)

Lemma search_from_complete p : forall s i a b,
  s = a ++ b -> Re.match_here p b <> None -> Re.search_from p s i <> None.
Proof.
  induction s as [|c s IH]; intros i a b E H; cbn [Re.search_from].
  - destruct a; [|discriminate E]. cbn [app] in E. subst b.
    destruct (Re.match_here p []); [discriminate|congruence].
  - destruct (Re.match_here p (c :: s)) eqn:M; [discriminate|].
    destruct a as [|x a]; [cbn [app] in E; congruence|].
    injection E as _ E. exact (IH _ a b E H).
Qed.

Lemma import_line_matches names rest :
  names <> [] -> ~ In close_brace names ->
  Re.match_here react_import_pattern (import_line names ++ rest) <> None.
Proof.
  intros Hne Hn.
  assert (HF : Forall2 item_matches react_import_pattern
                 [txt "import React, { "; names; txt " } from 'react';"]).
  { unfold react_import_pattern. repeat (constructor; try assumption). }
  pose proof (match_here_complete _ _ HF rest) as C.
  cbn [concat] in C. rewrite app_nil_r in C.
  unfold import_line. now rewrite <- !app_assoc in *.
Qed.

(** X4.  When [useCallback] does not occur in the text and a line
    [import React, { <names> } from 'react';] does, with non-empty names
    free of closing braces, the result differs from the text and
    [useCallback] occurs in it. *)
Theorem import_is_added_when_line_exists
    (content names : text)
    (Habsent : ~ occurs (txt "useCallback") content)
    (Hnames : names <> [])
    (Hbrace : ~ In close_brace names)
    (Hline : occurs (import_line names) content) :
  occurs (txt "useCallback") (add_use_callback_import content)
  /\ add_use_callback_import content <> content.
Proof.
  assert (Hin : occurs (txt "useCallback") (add_use_callback_import content)).
  { unfold add_use_callback_import.
    apply contains_false in Habsent. rewrite Habsent.
    apply contains_false in Habsent.
    destruct (Re.search react_import_pattern content) as [m|] eqn:S.
    - destruct (import_search_shape _ _ S)
        as (names' & Hne & Hn & -> & -> & Ho).
      assert (Hc : Py.contains (txt "useCallback") names' = false).
      { apply contains_false. intros H. apply Habsent.
        apply (occurs_trans _ _ _ H), (occurs_trans _ (import_line names'));
          [|exact Ho].
        exists (txt "import React, { "), (txt " } from 'react';").
        reflexivity. }
      rewrite Hc. cbn [negb].
      fold (import_line (names' ++ txt ", useCallback")).
      destruct (import_line_cons names') as (o & old & E). rewrite E in *.
      destruct (replace_as_join o old
                  (import_line (names' ++ txt ", useCallback"))
                  (length content) content (le_n _))
        as (segs & _ & _ & -> & Hlen).
      apply occurs_join_r; [now apply Hlen|apply import_line_has_symbol].
    - exfalso. destruct Hline as (a & b & E).
      apply (search_from_complete react_import_pattern content 0 a
               (import_line names ++ b) E); [|exact S].
      now apply import_line_matches. }
  split; [exact Hin|]. intros E. rewrite E in Hin. contradiction.
Qed.

Lemma import_is_added_witness :
  occurs (txt "useCallback")
    (add_use_callback_import
       (txt "import React, { useState, useEffect } from 'react';"))
  /\ add_use_callback_import
       (txt "import React, { useState, useEffect } from 'react';")
     <> txt "import React, { useState, useEffect } from 'react';".
Proof.
  apply (import_is_added_when_line_exists _ (txt "useState, useEffect")).
  - apply contains_false. vm_compute. reflexivity.
  - discriminate.
  - not_in_literal.
  - exists [], []. reflexivity.
Defined.

(** ** [strip] and [replace], further *)

Lemma word_char_not_space c : word_char c = true -> Py.is_space c = false.
Proof.
  destruct c as [[] [] [] [] [] [] [] []]; vm_compute; congruence.
Qed.

Lemma lstrip_keeps c f' a b :
  Py.is_space c = false ->
  exists a', Py.lstrip (a ++ (c :: f') ++ b) = a' ++ (c :: f') ++ b.
Proof.
  intros Hc. induction a as [|x a IH].
  - exists []. cbn [app Py.lstrip]. now rewrite Hc.
  - cbn [app Py.lstrip]. destruct (Py.is_space x).
    + exact IH.
    + now exists (x :: a).
Qed.

Lemma lstrip_suffix s : exists a, s = a ++ Py.lstrip s.
Proof.
  induction s as [|x s IH]; [now exists []|].
  cbn [Py.lstrip]. destruct (Py.is_space x); [|now exists []].
  destruct IH as [a Ha]. exists (x :: a). cbn [app]. now f_equal.
Qed.

Lemma strip_In c s : In c (Py.strip s) -> In c s.
Proof.
  unfold Py.strip, Py.rstrip. intros H. apply in_rev in H.
  destruct (lstrip_suffix (rev (Py.lstrip s))) as [a Ha].
  assert (H1 : In c (rev (Py.lstrip s))).
  { rewrite Ha. apply in_or_app. now right. }
  apply in_rev in H1. destruct (lstrip_suffix s) as [a' Ha'].
  rewrite Ha'. apply in_or_app. now right.
Qed.

(** A text without white space that occurs in [s] occurs in [s.strip()]. *)
Lemma strip_keeps_occurrence f s :
  Forall (fun c => Py.is_space c = false) f ->
  occurs f s -> occurs f (Py.strip s).
Proof.
  intros Hf [a [b ->]].
  destruct f as [|c f']; [now exists [], (Py.strip (a ++ [] ++ b))|].
  assert (Hc : Py.is_space c = false) by now inversion Hf.
  destruct (lstrip_keeps c f' a b Hc) as [a' E].
  unfold Py.strip, Py.rstrip. rewrite E.
  rewrite !rev_app_distr.
  assert (Hr : exists c' g, rev (c :: f') = c' :: g
                            /\ Py.is_space c' = false).
  { destruct (rev (c :: f')) as [|c' g] eqn:R.
    - apply (f_equal (@length _)) in R. rewrite length_rev in R.
      discriminate R.
    - exists c', g. split; [reflexivity|].
      rewrite Forall_forall in Hf. apply Hf. apply in_rev.
      rewrite R. now left. }
  destruct Hr as (c' & g & R & Hc').
  rewrite <- app_assoc. rewrite R.
  destruct (lstrip_keeps c' g (rev b) (rev a') Hc') as [b' E'].
  rewrite E'. rewrite <- R. rewrite !rev_app_distr, !rev_involutive.
  exists a', (rev b'). now rewrite <- !app_assoc.
Qed.

Lemma plain_name_no_space func_name :
  plain_name func_name = true ->
  Forall (fun c => Py.is_space c = false) func_name.
Proof.
  unfold plain_name. rewrite forallb_forall, Forall_forall.
  intros H c Hc. apply word_char_not_space. now apply H.
Qed.

Lemma replace_same s old : Py.replace s old old = s.
Proof.
  destruct old as [|o old].
  - unfold Py.replace. cbn [app].
    induction s as [|c s IH]; [reflexivity|]. cbn [flat_map app].
    now rewrite IH.
  - destruct (replace_as_join o old (o :: old) (length s) s (le_n _))
      as (segs & _ & Hs & Hrep & _).
    now rewrite Hrep, <- Hs.
Qed.

Lemma join_length_le sep sep' segs :
  (length sep <= length sep')%nat ->
  (length (Py.join sep segs) <= length (Py.join sep' segs))%nat.
Proof.
  intros H. induction segs as [|p [|q rest] IH]; [apply le_n|apply le_n|].
  rewrite !join_cons2, !length_app. lia.
Qed.

(** Replacing by a text that is not shorter does not shorten. *)
Lemma replace_length_le s old new :
  (length old <= length new)%nat ->
  (length s <= length (Py.replace s old new))%nat.
Proof.
  intros H. destruct old as [|o old].
  - unfold Py.replace. rewrite length_app.
    assert (length s <= length (flat_map (fun c => c :: new) s))%nat; [|lia].
    induction s as [|c s IH]; [apply le_n|].
    cbn [flat_map app length]. rewrite length_app. lia.
  - destruct (replace_as_join o old new (length s) s (le_n _))
      as (segs & _ & Hs & Hrep & _).
    rewrite Hrep. rewrite Hs at 1. now apply join_length_le.
Qed.

Lemma split_at_unique (c : ascii) : forall x y r1 r2 : text,
  ~ In c x -> ~ In c r1 -> x ++ c :: r1 = y ++ c :: r2 -> x = y /\ r1 = r2.
Proof.
  induction x as [|a x IH]; intros [|b y] r1 r2 Hx Hr E; cbn [app] in E.
  - injection E as ->. now split.
  - injection E as _ E. exfalso. apply Hr. rewrite E.
    apply in_or_app. right. now left.
  - injection E as -> _. exfalso. apply Hx. now left.
  - injection E as -> E.
    destruct (IH y r1 r2) as [-> ->]; auto.
    intros H. apply Hx. now right.
Qed.

Lemma starts_with_short sub : forall x r1 r2,
  (length sub <= length x)%nat ->
  Py.starts_with sub (x ++ r1) = Py.starts_with sub (x ++ r2).
Proof.
  induction sub as [|a sub IH]; intros x r1 r2 H; [reflexivity|].
  destruct x as [|b x]; [simpl in H; lia|].
  cbn [app Py.starts_with]. f_equal. apply IH. simpl in H. lia.
Qed.

(** Whether an occurrence of [sub] starts inside [pre] does not depend on
    what follows a [sub] that comes next. *)
Lemma no_start_same_head sub pre r1 r2 :
  no_start sub pre (sub ++ r1) -> no_start sub pre (sub ++ r2).
Proof.
  induction pre as [|c pre IH]; intros H; [exact I|].
  destruct H as [H1 H2]. split; [|now apply IH].
  rewrite app_assoc in *.
  rewrite (starts_with_short sub _ r2 r1); [exact H1|].
  rewrite length_app. lia.
Qed.

(** ** [add_deps_to_useeffect] on a text with one effect *)

Section SingleEffect.

Variables func_name b1 b2 deps pre post : text.

Hypothesis name_plain : plain_name func_name = true.
Hypothesis body_brace1 : ~ In close_brace b1.
Hypothesis body_brace2 : ~ In close_brace b2.
Hypothesis body_bracket1 : ~ In open_bracket b1.
Hypothesis body_bracket2 : ~ In open_bracket b2.
Hypothesis deps_bracket : ~ In close_bracket deps.
Hypothesis pre_clear :
  no_start effect_anchor pre (effect_block func_name b1 b2 deps ++ post).
Hypothesis post_clear : ~ occurs effect_anchor post.

Let block : text := effect_block func_name b1 b2 deps.
Let content : text := pre ++ block ++ post.

(** The loop runs once, on the effect. *)
Lemma single_effect_one_match :
  exists m,
    add_deps_to_useeffect content func_name
    = patch_match func_name content m
    /\ Re.group0 m = block.
Proof.
  destruct (finditer_single_block func_name b1 b2 deps
              name_plain body_brace1 body_brace2 deps_bracket
              pre post pre_clear post_clear) as (m & Hm & Hg).
  exists m. split; [|exact Hg].
  unfold add_deps_to_useeffect, content, block. now rewrite Hm.
Qed.

Lemma single_effect_replaced new_block :
  Py.replace content block new_block = pre ++ new_block ++ post.
Proof.
  unfold content, block. rewrite replace_no_start'.
  - rewrite replace_hit' by apply effect_block_not_nil.
    rewrite replace_absent'; [reflexivity|apply effect_block_not_nil|].
    unfold effect_block. now apply not_occurs_longer.
  - apply effect_block_not_nil.
  - unfold effect_block at 1. now apply no_start_longer.
Qed.

Lemma single_effect_appended :
  Py.strip deps = deps -> Py.contains func_name deps = false ->
  add_deps_to_useeffect content func_name
  = pre ++ effect_block func_name b1 b2 (appended_deps deps func_name)
    ++ post.
Proof.
  intros Hstrip Habsent.
  destruct single_effect_one_match as (m & -> & Hg).
  rewrite (patch_match_block func_name b1 b2 deps name_plain
             body_bracket1 body_bracket2 deps_bracket _ _ Hg Hstrip Habsent).
  apply single_effect_replaced.
Qed.

Lemma single_effect_listed :
  occurs func_name deps ->
  add_deps_to_useeffect content func_name = content.
Proof.
  intros Hlisted.
  destruct single_effect_one_match as (m & -> & Hg).
  unfold patch_match. rewrite Hg. unfold block.
  destruct (search_deps_block func_name b1 b2 deps name_plain
              body_bracket1 body_bracket2 deps_bracket) as (dm & -> & ->).
  assert (Hc : Py.contains func_name (Py.strip deps) = true).
  { apply contains_true, strip_keeps_occurrence; [|exact Hlisted].
    now apply plain_name_no_space. }
  now rewrite Hc.
Qed.

Lemma stripped_list_not_in_block :
  Py.strip deps <> deps -> ~ In open_bracket deps ->
  ~ occurs (txt "[" ++ Py.strip deps ++ txt "]") block.
Proof.
  intros Hpad Hdeps [a [b E]].
  unfold block in E.
  rewrite (effect_block_brackets func_name b1 b2 deps) in E.
  rewrite <- !app_assoc in E. cbn [app] in E.
  rewrite <- !app_assoc in E.
  assert (E' : (effect_anchor ++ b1 ++ func_name ++ txt "();" ++ b2
                ++ txt "}, ")
               ++ open_bracket :: (deps ++ close_bracket :: txt ");")
               = a ++ open_bracket
                   :: (Py.strip deps ++ close_bracket :: b)).
  { rewrite <- !app_assoc. exact E. }
  apply split_at_unique in E'.
  - destruct E' as [_ E']. apply split_at_first in E'.
    + destruct E' as [E' _]. congruence.
    + exact deps_bracket.
    + intros H. apply deps_bracket. now apply strip_In.
  - now apply effect_lead_no_bracket.
  - rewrite in_app_iff. intros [H|H]; [tauto|].
    vm_compute in H. intuition discriminate.
Qed.

Lemma single_effect_padded :
  Py.strip deps <> deps -> ~ In open_bracket deps ->
  add_deps_to_useeffect content func_name = content.
Proof.
  intros Hpad Hdeps.
  destruct single_effect_one_match as (m & -> & Hg).
  unfold patch_match. rewrite Hg. unfold block.
  destruct (search_deps_block func_name b1 b2 deps name_plain
              body_bracket1 body_bracket2 deps_bracket) as (dm & -> & ->).
  destruct (negb _); [|reflexivity].
  rewrite (replace_absent' (txt "[" ++ Py.strip deps ++ txt "]")).
  - apply replace_same.
  - discriminate.
  - now apply stripped_list_not_in_block.
Qed.

End SingleEffect.

Lemma effect_block_anchor func_name b1 b2 deps post :
  effect_block func_name b1 b2 deps ++ post
  = effect_anchor
    ++ (b1 ++ func_name ++ txt "();" ++ b2 ++ txt "}, [" ++ deps
        ++ txt "]);" ++ post).
Proof. unfold effect_block. now rewrite <- !app_assoc. Qed.

Lemma appended_deps_no_bracket deps func_name :
  plain_name func_name = true -> ~ In close_bracket deps ->
  ~ In close_bracket (appended_deps deps func_name).
Proof.
  intros Hname Hdeps.
  assert (Hf : ~ In close_bracket func_name)
    by now apply (plain_name_chars _ _ Hname).
  unfold appended_deps. destruct deps as [|c deps]; [exact Hf|].
  rewrite !in_app_iff. intros [H|[H|H]]; try tauto.
  vm_compute in H. intuition discriminate.
Qed.

Lemma appended_deps_listed deps func_name :
  occurs func_name (appended_deps deps func_name).
Proof.
  unfold appended_deps. destruct deps as [|c deps].
  - exists [], []. now rewrite app_nil_r.
  - exists ((c :: deps) ++ txt ", "), [].
    now rewrite app_nil_r, <- app_assoc.
Qed.

(** X5.  In a text with one effect of the fixed shape (no closing brace
    and no opening bracket in its body, no closing bracket in its list,
    no other opening of an effect in the text), a function name that
    already occurs in the list text leaves the text unchanged, whatever
    white space surrounds the list. *)
Theorem listed_name_leaves_text_unchanged
    (pre post b1 b2 deps func_name : text)
    (Hname : plain_name func_name = true)
    (Hbrace1 : ~ In close_brace b1) (Hbrace2 : ~ In close_brace b2)
    (Hbracket1 : ~ In open_bracket b1) (Hbracket2 : ~ In open_bracket b2)
    (Hdeps : ~ In close_bracket deps)
    (Hlisted : occurs func_name deps)
    (Hfirst : Py.find effect_anchor
                (pre ++ effect_block func_name b1 b2 deps ++ post)
              = Z.of_nat (length pre))
    (Hlast : Py.contains effect_anchor post = false) :
  add_deps_to_useeffect
    (pre ++ effect_block func_name b1 b2 deps ++ post) func_name
  = pre ++ effect_block func_name b1 b2 deps ++ post.
Proof.
  apply single_effect_listed; try assumption.
  - apply (find_no_start _ _ _ 0); [lia|exact Hfirst].
  - now apply contains_false.
Qed.

Lemma listed_name_witness :
  add_deps_to_useeffect
    (txt "useEffect(() => { loadX(); }, [ userId, loadX ]);") (txt "loadX")
  = txt "useEffect(() => { loadX(); }, [ userId, loadX ]);".
Proof.
  apply (listed_name_leaves_text_unchanged [] [] (txt " ") (txt " ")
           (txt " userId, loadX ") (txt "loadX"));
    try not_in_literal; try (vm_compute; reflexivity).
  exists (txt " userId, "), (txt " "). reflexivity.
Defined.

(** X6.  On such a text, with a list text without white space around it,
    applying [add_deps_to_useeffect] a second time changes nothing. *)
Theorem single_effect_second_application_is_noop
    (pre post b1 b2 deps func_name : text)
    (Hname : plain_name func_name = true)
    (Hbrace1 : ~ In close_brace b1) (Hbrace2 : ~ In close_brace b2)
    (Hbracket1 : ~ In open_bracket b1) (Hbracket2 : ~ In open_bracket b2)
    (Hdeps : ~ In close_bracket deps)
    (Hstrip : Py.strip deps = deps)
    (Hfirst : Py.find effect_anchor
                (pre ++ effect_block func_name b1 b2 deps ++ post)
              = Z.of_nat (length pre))
    (Hlast : Py.contains effect_anchor post = false) :
  add_deps_to_useeffect
    (add_deps_to_useeffect
       (pre ++ effect_block func_name b1 b2 deps ++ post) func_name)
    func_name
  = add_deps_to_useeffect
      (pre ++ effect_block func_name b1 b2 deps ++ post) func_name.
Proof.
  apply contains_false in Hlast.
  assert (Hpre : no_start effect_anchor pre
                   (effect_block func_name b1 b2 deps ++ post)).
  { apply (find_no_start _ _ _ 0); [lia|exact Hfirst]. }
  destruct (Py.contains func_name deps) eqn:C.
  - apply contains_true in C.
    now rewrite !(single_effect_listed func_name b1 b2 deps pre post).
  - rewrite (single_effect_appended func_name b1 b2 deps pre post)
      by assumption.
    apply single_effect_listed; try assumption.
    + now apply appended_deps_no_bracket.
    + rewrite effect_block_anchor in *.
      exact (no_start_same_head _ _ _ _ Hpre).
    + apply appended_deps_listed.
Qed.

Lemma single_effect_second_application_witness :
  add_deps_to_useeffect
    (add_deps_to_useeffect
       (txt "function Card() { useEffect(() => { loadX(); }, [userId]); }")
       (txt "loadX"))
    (txt "loadX")
  = add_deps_to_useeffect
      (txt "function Card() { useEffect(() => { loadX(); }, [userId]); }")
      (txt "loadX").
Proof.
  apply (single_effect_second_application_is_noop
           (txt "function Card() { ") (txt " }") (txt " ") (txt " ")
           (txt "userId") (txt "loadX"));
    try not_in_literal; vm_compute; reflexivity.
Defined.

(** X7.  On such a text, a list text with white space at either end and
    no bracket inside, as in [[ userId ]], is never extended: the text is
    returned unchanged whether or not the function name is in the list. *)
Theorem padded_list_is_never_extended
    (pre post b1 b2 deps func_name : text)
    (Hname : plain_name func_name = true)
    (Hbrace1 : ~ In close_brace b1) (Hbrace2 : ~ In close_brace b2)
    (Hbracket1 : ~ In open_bracket b1) (Hbracket2 : ~ In open_bracket b2)
    (Hdeps : ~ In close_bracket deps)
    (Hdeps' : ~ In open_bracket deps)
    (Hpad : Py.strip deps <> deps)
    (Hfirst : Py.find effect_anchor
                (pre ++ effect_block func_name b1 b2 deps ++ post)
              = Z.of_nat (length pre))
    (Hlast : Py.contains effect_anchor post = false) :
  add_deps_to_useeffect
    (pre ++ effect_block func_name b1 b2 deps ++ post) func_name
  = pre ++ effect_block func_name b1 b2 deps ++ post.
Proof.
  apply single_effect_padded; try assumption.
  - apply (find_no_start _ _ _ 0); [lia|exact Hfirst].
  - now apply contains_false.
Qed.

Lemma padded_list_witness :
  add_deps_to_useeffect
    (txt "useEffect(() => { loadX(); }, [ userId ]);") (txt "loadX")
  = txt "useEffect(() => { loadX(); }, [ userId ]);".
Proof.
  apply (padded_list_is_never_extended [] [] (txt " ") (txt " ")
           (txt " userId ") (txt "loadX"));
    try not_in_literal; vm_compute; reflexivity.
Defined.

(** ** [add_deps_to_useeffect] on a text with several effects *)

Lemma take_until_split c s :
  In c s -> exists y, s = take_until c s ++ c :: y.
Proof.
  induction s as [|x s IH]; intros H; [destruct H|].
  cbn [take_until]. destruct (ascii_eqb x c) eqn:E.
  - apply ascii_eqb_true in E. subst x. now exists s.
  - destruct H as [H|H]; [apply ascii_eqb_false in E; congruence|].
    destruct (IH H) as [y Hy]. exists y. cbn [app]. now f_equal.
Qed.

Lemma take_until_clear c s : ~ In c (take_until c s).
Proof.
  induction s as [|x s IH]; cbn [take_until]; [intros []|].
  destruct (ascii_eqb x c) eqn:E; [intros []|].
  intros [H|H]; [apply ascii_eqb_false in E; congruence|tauto].
Qed.

Lemma starts_with_self sub : Py.starts_with sub sub = true.
Proof.
  pose proof (starts_with_app sub []) as H. now rewrite app_nil_r in H.
Qed.

(** A text whose first character does not come back in it cannot begin
    before the end of [p] and run into a copy of itself. *)
Lemma starts_with_straddle o sub' p rest :
  ~ In o sub' -> p <> [] ->
  Py.starts_with (o :: sub') p = false ->
  rest = [] \/ (exists r, rest = (o :: sub') ++ r) ->
  Py.starts_with (o :: sub') (p ++ rest) = false.
Proof.
  intros Ho Hp Hs Hrest.
  destruct (Py.starts_with (o :: sub') (p ++ rest)) eqn:E;
    [exfalso|reflexivity].
  apply starts_with_true in E. destruct E as [r' E].
  apply app_eq_app in E. destruct E as [l [[E1 E2]|[E1 E2]]].
  - rewrite E1, starts_with_app in Hs. discriminate.
  - destruct l as [|y l'].
    + rewrite app_nil_r in E1. rewrite <- E1, starts_with_self in Hs.
      discriminate.
    + destruct Hrest as [->|[r ->]]; [discriminate E2|].
      cbn [app] in E2. injection E2 as E3 _. subst y.
      destruct p as [|x p']; [congruence|].
      cbn [app] in E1. injection E1 as _ E1.
      apply Ho. rewrite E1. apply in_or_app. right. now left.
Qed.

(** A text that does not occur in [pre] does not begin in [pre] when a
    character it does not hold comes next. *)
Lemma no_start_sealed sub pre c rest :
  ~ occurs sub pre -> ~ In c sub -> no_start sub pre (c :: rest).
Proof.
  induction pre as [|x pre IH]; intros Ho Hc; [exact I|].
  apply not_occurs_cons in Ho. destruct Ho as [Hs Ho].
  split; [|now apply IH].
  destruct (Py.starts_with sub ((x :: pre) ++ c :: rest)) eqn:E;
    [exfalso|reflexivity].
  apply starts_with_true in E. destruct E as [r' E].
  apply app_eq_app in E. destruct E as [l [[E1 E2]|[E1 E2]]].
  - rewrite E1, starts_with_app in Hs. discriminate.
  - destruct l as [|y l'].
    + rewrite app_nil_r in E1. rewrite E1, starts_with_self in Hs.
      discriminate.
    + cbn [app] in E2. injection E2 as E3 _. subst y.
      apply Hc. rewrite E1. apply in_or_app. right. now left.
Qed.

(** A text whose last character does not occur in [t] occurs in
    [pre ++ t] only if it occurs in [pre]. *)
Lemma occurs_before_tail sub0 c pre t :
  ~ In c t -> occurs (sub0 ++ [c]) (pre ++ t) -> occurs (sub0 ++ [c]) pre.
Proof.
  intros Hc [a [b E]].
  assert (E' : pre ++ t = (a ++ sub0) ++ c :: b).
  { rewrite E, <- !app_assoc. reflexivity. }
  apply app_eq_app in E'. destruct E' as [l [[E1 E2]|[E1 E2]]].
  - destruct l as [|y l'].
    + cbn [app] in E2. exfalso. apply Hc. rewrite <- E2. now left.
    + cbn [app] in E2. injection E2 as E3 _. subst y.
      exists a, l'. rewrite E1, <- !app_assoc. reflexivity.
  - exfalso. apply Hc. rewrite E2. apply in_or_app. right. now left.
Qed.

Lemma effect_text_block func_name b1 b2 deps :
  effect_text {| e_body := b1 ++ func_name ++ txt "();" ++ b2;
                 e_deps := deps |}
  = effect_block func_name b1 b2 deps.
Proof.
  unfold effect_text, effect_block. cbn [e_body e_deps].
  now rewrite <- !app_assoc.
Qed.

Lemma effect_text_cons e :
  effect_text e
  = "u"%char
    :: (txt "seEffect(() => {" ++ e_body e ++ txt "}, [" ++ e_deps e
        ++ txt "]);").
Proof. reflexivity. Qed.

(** The body and the list of an effect of the fixed shape can be read
    off any text that begins with it. *)
Lemma effect_text_prefix e e0 r r0 :
  ~ In close_brace (e_body e) -> ~ In close_brace (e_body e0) ->
  ~ In close_bracket (e_deps e) -> ~ In close_bracket (e_deps e0) ->
  effect_text e ++ r = effect_text e0 ++ r0 -> e = e0.
Proof.
  intros Hb Hb0 Hd Hd0 E. unfold effect_text in E.
  rewrite <- !app_assoc in E. apply app_inv_head in E.
  change (txt "}, [") with (close_brace :: txt ", [") in E.
  cbn [app] in E.
  apply split_at_first in E; [|assumption|assumption].
  destruct E as [E1 E2].
  change (txt "]);") with (close_bracket :: txt ");") in E2.
  cbn [app] in E2. injection E2 as E2.
  apply split_at_first in E2; [|assumption|assumption].
  destruct E2 as [E2 _].
  destruct e, e0. cbn [e_body e_deps] in *. now subst.
Qed.

(** An effect does not open inside an effect of the fixed shape. *)
Lemma anchor_not_inside e rest :
  ~ occurs effect_anchor (e_body e) -> ~ occurs effect_anchor (e_deps e) ->
  no_start effect_anchor
    (txt "seEffect(() => {" ++ e_body e ++ txt "}, [" ++ e_deps e
     ++ txt "]);") rest.
Proof.
  intros Hb Hd.
  change effect_anchor with ("u"%char :: txt "seEffect(() => {") in *.
  apply no_start_app; [apply no_start_head; not_in_literal|].
  apply no_start_app.
  { rewrite <- !app_assoc.
    change (txt "}, [") with (close_brace :: txt ", [").
    cbn [app]. apply no_start_sealed; [exact Hb|not_in_literal]. }
  apply no_start_app; [apply no_start_head; not_in_literal|].
  apply no_start_app.
  { change (txt "]);") with (close_bracket :: txt ");").
    cbn [app]. apply no_start_sealed; [exact Hd|not_in_literal]. }
  apply no_start_head. not_in_literal.
Qed.

Lemma listed_idem func_name e :
  listed func_name (listed func_name e) = listed func_name e.
Proof.
  unfold listed. destruct (Py.contains func_name (e_deps e)) eqn:C.
  - now rewrite C.
  - cbn [e_deps].
    replace (Py.contains func_name (appended_deps (e_deps e) func_name))
      with true; [reflexivity|].
    symmetry. apply contains_true, appended_deps_listed.
Qed.

(** The rounds of the loop, seen from one effect: once it has been
    rewritten it stays as it is, and it is rewritten by the round of its
    own match. *)
Lemma fold_relist_fixed func_name es : forall x,
  listed func_name x = x -> fold_left (relist func_name) es x = x.
Proof.
  induction es as [|e es IH]; intros x Hx; [reflexivity|].
  cbn [fold_left]. unfold relist at 2.
  destruct (effect_eq_dec x e) as [<-|_]; [rewrite Hx|]; now apply IH.
Qed.

Lemma fold_relist_listed func_name es : forall x,
  In x es -> fold_left (relist func_name) es x = listed func_name x.
Proof.
  induction es as [|e es IH]; intros x Hx; [destruct Hx|].
  cbn [fold_left]. unfold relist at 2.
  destruct (effect_eq_dec x e) as [<-|Hne].
  - apply fold_relist_fixed, listed_idem.
  - apply IH. destruct Hx as [Hx|Hx]; [congruence|exact Hx].
Qed.

Lemma fold_swap_parts func_name es : forall st : list (text * effect),
  fold_left (fun st e => map (swap e (listed func_name e)) st) es st
  = map (fun part =>
           (fst part, fold_left (relist func_name) es (snd part))) st.
Proof.
  induction es as [|e es IH]; intros st; cbn [fold_left].
  - rewrite <- (map_id st) at 1. apply map_ext. now intros [sep x].
  - rewrite IH, map_map. apply map_ext. now intros [sep x].
Qed.

Lemma finditer_skip_hit p c blk rest i gs :
  Re.match_here p ((c :: blk) ++ rest) = Some gs ->
  concat gs = c :: blk ->
  Re.finditer_skip p ((c :: blk) ++ rest) i 0
  = {| Re.m_start := i; Re.m_parts := gs |}
    :: Re.finditer_skip p rest (i + 1 + Z.of_nat (length blk)) 0.
Proof.
  intros M Hgs. cbn [app Re.finditer_skip]. cbn [app] in M. rewrite M.
  f_equal. rewrite finditer_skip_skipn, Hgs. cbn [length Nat.pred].
  now rewrite skipn_app, skipn_all, Nat.sub_diag.
Qed.

Section SeveralEffects.

Variables func_name tail : text.

Hypothesis name_plain : plain_name func_name = true.
Hypothesis tail_closed :
  closed_without_call (func_name ++ txt "();") tail = true.

(** The other text and the effects of a part. *)
Let sound (part : text * effect) : Prop :=
  closed_without_call (func_name ++ txt "();") (fst part) = true
  /\ fixed_shape func_name (snd part).

Lemma fixed_shape_split e :
  fixed_shape func_name e ->
  exists b1 b2,
    e_body e = b1 ++ func_name ++ txt "();" ++ b2
    /\ ~ In close_brace b1 /\ ~ In close_brace b2
    /\ ~ In open_bracket b1 /\ ~ In open_bracket b2.
Proof.
  intros ([b1 [b2 E]] & Hb & Hk & _).
  exists b1, b2. rewrite E in Hb, Hk. rewrite !in_app_iff in Hb, Hk.
  split; [|tauto]. now rewrite E, <- app_assoc.
Qed.

(** The pattern matches at the start of an effect of the fixed shape,
    and the match is that effect. *)
Lemma effect_text_matches e post :
  fixed_shape func_name e ->
  exists gs,
    Re.match_here (effect_pattern func_name) (effect_text e ++ post)
    = Some gs
    /\ concat gs = effect_text e.
Proof.
  intros He.
  destruct (fixed_shape_split e He) as (b1 & b2 & E & H1 & H2 & _).
  destruct He as (_ & _ & _ & _ & Hd & _).
  destruct e as [body deps]. cbn [e_body e_deps] in *. subst body.
  rewrite effect_text_block.
  exact (effect_match_block func_name b1 b2 deps name_plain H1 H2 Hd post).
Qed.

(** No match starts in a stretch of text where every effect that opens
    is closed without the call, when the text ends there or an effect
    opens next. *)
Lemma closed_no_match sep rest :
  closed_without_call (func_name ++ txt "();") sep = true ->
  rest = [] \/ (exists r, rest = effect_anchor ++ r) ->
  no_match_start func_name sep rest.
Proof.
  intros Hc Hrest. induction sep as [|c s IH]; [exact I|].
  cbn [closed_without_call] in Hc.
  apply andb_true_iff in Hc. destruct Hc as [Hc Hs].
  split; [|exact (IH Hs)].
  destruct (Re.match_here (effect_pattern func_name) ((c :: s) ++ rest))
    as [gs|] eqn:M; [exfalso|reflexivity].
  apply effect_match_shape in M.
  destruct M as (g1 & g2 & g3 & r' & G1 & G2 & G3 & _ & E).
  rewrite effect_block_anchor in E.
  destruct (Py.starts_with effect_anchor (c :: s)) eqn:A.
  - apply andb_true_iff in Hc. destruct Hc as [Hclose Hcall].
    apply starts_with_skipn in A.
    set (opened := skipn (length effect_anchor) (c :: s)) in *.
    apply contains_true in Hclose.
    assert (Hin : In close_brace opened).
    { apply (occurs_In _ _ _ Hclose). now left. }
    destruct (take_until_split _ _ Hin) as [y Hy].
    rewrite A, <- app_assoc in E. apply app_inv_head in E.
    rewrite Hy in E.
    assert (E' : take_until close_brace opened
                 ++ close_brace :: (y ++ rest)
                 = (g1 ++ (func_name ++ txt "();") ++ g2)
                   ++ close_brace
                      :: (txt ", [" ++ g3 ++ txt "]);" ++ r')).
    { rewrite <- !app_assoc. rewrite <- app_assoc in E. exact E. }
    apply split_at_first in E'.
    + destruct E' as [E' _].
      apply negb_true_iff, contains_false in Hcall. apply Hcall.
      rewrite E'. now exists g1, g2.
    + apply take_until_clear.
    + pose proof (call_no_brace func_name name_plain) as Hcall'.
      rewrite !in_app_iff in *. tauto.
  - assert (S : Py.starts_with effect_anchor ((c :: s) ++ rest) = false).
    { change effect_anchor with ("u"%char :: txt "seEffect(() => {") in *.
      apply starts_with_straddle;
        [not_in_literal|discriminate|exact A|exact Hrest]. }
    rewrite E, starts_with_app in S. discriminate.
Qed.

Lemma finditer_skip_quiet pre rest : forall i,
  no_match_start func_name pre rest ->
  Re.finditer_skip (effect_pattern func_name) (pre ++ rest) i 0
  = Re.finditer_skip (effect_pattern func_name) rest
      (i + Z.of_nat (length pre)) 0.
Proof.
  induction pre as [|c pre IH]; intros i H.
  - cbn [app length]. f_equal. simpl. lia.
  - destruct H as [H1 H2]. cbn [app Re.finditer_skip].
    cbn [app] in H1. rewrite H1.
    rewrite IH by exact H2. f_equal. cbn [length]. lia.
Qed.

(** Where no match starts, no effect of the fixed shape begins. *)
Lemma no_match_no_effect e pre rest :
  fixed_shape func_name e ->
  no_match_start func_name pre rest ->
  no_start (effect_text e) pre rest.
Proof.
  intros He. induction pre as [|c pre IH]; intros H; [exact I|].
  destruct H as [H1 H2]. split; [|now apply IH].
  destruct (Py.starts_with (effect_text e) ((c :: pre) ++ rest)) eqn:S;
    [exfalso|reflexivity].
  apply starts_with_true in S. destruct S as [r S].
  destruct (effect_text_matches e r He) as (gs & M & _).
  rewrite <- S in M. congruence.
Qed.

(** The matches of the pattern in a text with effects of the fixed
    shape: these effects, from left to right. *)
Lemma finditer_assemble : forall parts i,
  Forall sound parts ->
  map Re.group0
    (Re.finditer_skip (effect_pattern func_name) (assemble parts tail) i 0)
  = map (fun part => effect_text (snd part)) parts.
Proof.
  induction parts as [|[sep e] parts IH]; intros i H.
  - cbn [assemble map]. rewrite <- (app_nil_r tail).
    rewrite finditer_skip_quiet; [reflexivity|].
    apply closed_no_match; [exact tail_closed|now left].
  - inversion H as [|x l [Hsep He] Hrest]; subst. cbn [fst snd] in *.
    cbn [assemble map snd].
    rewrite finditer_skip_quiet.
    2:{ apply closed_no_match; [exact Hsep|]. right.
        unfold effect_text. rewrite <- !app_assoc. eexists. reflexivity. }
    destruct (effect_text_matches e (assemble parts tail) He)
      as (gs & M & Hgs).
    pose proof (effect_text_cons e) as T.
    destruct (effect_text e) as [|c blk]; [discriminate T|]. clear T.
    rewrite (finditer_skip_hit _ _ _ _ _ _ M Hgs). cbn [map].
    f_equal; [exact Hgs|]. now apply IH.
Qed.

(** [content.replace] with the text of an effect of the fixed shape
    rewrites the effects that have this text, and nothing else. *)
Lemma replace_assemble e0 e0' :
  fixed_shape func_name e0 ->
  forall st, Forall sound st ->
  Py.replace (assemble st tail) (effect_text e0) (effect_text e0')
  = assemble (map (swap e0 e0') st) tail.
Proof.
  intros He0.
  assert (Hnil : effect_text e0 <> []) by discriminate.
  induction st as [|[sep e] st IH]; intros H.
  - cbn [assemble map]. rewrite <- (app_nil_r tail) at 1.
    rewrite replace_no_start'; [now rewrite app_nil_r|exact Hnil|].
    apply no_match_no_effect; [exact He0|].
    apply closed_no_match; [exact tail_closed|now left].
  - inversion H as [|x l [Hsep He] Hrest]; subst. cbn [fst snd] in *.
    cbn [assemble map]. unfold swap at 1. cbn [fst snd].
    rewrite replace_no_start'; [|exact Hnil|].
    2:{ apply no_match_no_effect; [exact He0|].
        apply closed_no_match; [exact Hsep|]. right.
        unfold effect_text. rewrite <- !app_assoc. eexists. reflexivity. }
    f_equal.
    destruct (effect_eq_dec e e0) as [->|Hne].
    + rewrite replace_hit' by exact Hnil. f_equal. now apply IH.
    + rewrite replace_no_start'; [|exact Hnil|].
      * f_equal. now apply IH.
      * destruct He as (_ & Hb & _ & Ha & Hd & Ha').
        destruct He0 as (_ & Hb0 & _ & _ & Hd0 & _).
        rewrite (effect_text_cons e). split.
        -- rewrite <- effect_text_cons.
           destruct (Py.starts_with (effect_text e0)
                       (effect_text e ++ assemble st tail)) eqn:S;
             [exfalso|reflexivity].
           apply starts_with_true in S. destruct S as [r S].
           apply Hne.
           now apply (effect_text_prefix e e0 (assemble st tail) r).
        -- unfold effect_text at 1. apply no_start_longer.
           now apply anchor_not_inside.
Qed.

(** The body of the loop, for the match of an effect of the fixed shape
    whose list text has no white space around it. *)
Lemma patch_match_listed content m e :
  fixed_shape func_name e ->
  Py.strip (e_deps e) = e_deps e ->
  Re.group0 m = effect_text e ->
  patch_match func_name content m
  = Py.replace content (effect_text e) (effect_text (listed func_name e)).
Proof.
  intros He Hstrip Hg.
  destruct (fixed_shape_split e He) as (b1 & b2 & E & _ & _ & H1 & H2).
  destruct He as (_ & _ & _ & _ & Hd & _).
  destruct e as [body deps]. cbn [e_body e_deps] in *. subst body.
  rewrite effect_text_block in Hg.
  unfold listed. cbn [e_body e_deps].
  destruct (Py.contains func_name deps) eqn:C.
  - rewrite replace_same. unfold patch_match. rewrite Hg.
    destruct (search_deps_block func_name b1 b2 deps name_plain
                H1 H2 Hd) as (dm & -> & ->).
    now rewrite Hstrip, C.
  - rewrite (patch_match_block func_name b1 b2 deps name_plain
               H1 H2 Hd _ _ Hg Hstrip C).
    now rewrite !effect_text_block.
Qed.

Lemma fixed_shape_listed e :
  fixed_shape func_name e -> fixed_shape func_name (listed func_name e).
Proof.
  intros He. unfold listed.
  destruct (Py.contains func_name (e_deps e)); [exact He|].
  destruct He as (H1 & H2 & H3 & H4 & H5 & H6).
  repeat (split; [assumption|]). cbn [e_deps]. split.
  - now apply appended_deps_no_bracket.
  - assert (Hf : ~ In open_brace func_name)
      by now apply (plain_name_chars _ _ name_plain).
    change effect_anchor with (txt "useEffect(() => " ++ [open_brace]) in *.
    unfold appended_deps. destruct (e_deps e) as [|c d] eqn:D.
    + intros H. apply (occurs_before_tail _ _ [] func_name Hf) in H.
      destruct H as [a [b H]]. destruct a; discriminate H.
    + intros H. apply H6. revert H. apply occurs_before_tail.
      rewrite in_app_iff. intros [H|H]; [|tauto].
      vm_compute in H. intuition discriminate.
Qed.

Lemma sound_swap e st :
  fixed_shape func_name e -> Forall sound st ->
  Forall sound (map (swap e (listed func_name e)) st).
Proof.
  intros He H. apply Forall_map. revert H. apply Forall_impl.
  intros [sep x] [Hsep Hx]. split; [exact Hsep|]. cbn [swap fst snd].
  destruct (effect_eq_dec x e); [now apply fixed_shape_listed|exact Hx].
Qed.

(** The loop over the matches of effects of the fixed shape, on a text
    with such effects. *)
Lemma fold_patch_assemble : forall ms es st,
  map Re.group0 ms = map effect_text es ->
  Forall (fun e => fixed_shape func_name e
                   /\ Py.strip (e_deps e) = e_deps e) es ->
  Forall sound st ->
  fold_left (patch_match func_name) ms (assemble st tail)
  = assemble
      (fold_left (fun st e => map (swap e (listed func_name e)) st) es st)
      tail.
Proof.
  induction ms as [|m ms IH]; intros [|e es] st Hms Hes Hst;
    try discriminate Hms; [reflexivity|].
  cbn [map] in Hms. injection Hms as Hm Hms.
  inversion Hes as [|x l [He Hstrip] Hes']; subst.
  cbn [fold_left].
  rewrite (patch_match_listed _ _ e He Hstrip Hm).
  rewrite replace_assemble by assumption.
  apply IH; [exact Hms|exact Hes'|now apply sound_swap].
Qed.

End SeveralEffects.



(** Why no effect may open inside a list text: [content.replace] finds
    the text of the first effect inside the list of the second one too,
    and rewrites it there, although [loadX] occurs in that list. *)
Example add_deps_rewrites_inside_a_list :
  add_deps_to_useeffect
    (txt "useEffect(() => { loadX(); }, [a]); useEffect(() => { loadX(); }, [useEffect(() => { loadX(); }, [a]);")
    (txt "loadX")
  = txt "useEffect(() => { loadX(); }, [a, loadX]); useEffect(() => { loadX(); }, [useEffect(() => { loadX(); }, [a, loadX]);".
Proof. vm_compute. reflexivity. Qed.

(** ** Nothing is deleted *)

Lemma patch_match_length func_name content m :
  (length content <= length (patch_match func_name content m))%nat.
Proof.
  unfold patch_match.
  destruct (Re.search deps_pattern (Re.group0 m)) as [dm|]; [|apply le_n].
  destruct (negb _); [|apply le_n].
  apply replace_length_le, replace_length_le.
  rewrite !length_app. apply Nat.add_le_mono_l, Nat.add_le_mono_r.
  destruct (Py.strip (Re.part 1 dm)) as [|c d]; [apply Nat.le_0_l|].
  rewrite length_app. apply Nat.le_add_r.
Qed.

Lemma fold_patch_length func_name ms : forall content,
  (length content
   <= length (fold_left (patch_match func_name) ms content))%nat.
Proof.
  induction ms as [|m ms IH]; intros content; [apply le_n|].
  cbn [fold_left]. etransitivity; [|apply IH]. apply patch_match_length.
Qed.

(** X8.  Neither [add_use_callback_import] nor [add_deps_to_useeffect]
    ever returns a text shorter than the one it was given. *)
Theorem import_and_deps_never_shorten (content func_name : text) :
  (length content <= length (add_use_callback_import content))%nat
  /\ (length content
      <= length (add_deps_to_useeffect content func_name))%nat.
Proof.
  split; [|apply fold_patch_length].
  destruct (add_use_callback_import_cases content)
    as [-> | (names & segs & _ & _ & _ & Hs & ->)]; [apply le_n|].
  rewrite Hs at 1. apply join_length_le.
  unfold import_line. rewrite !length_app. lia.
Qed.

(** ** [process_file] and [main] *)

Lemma file_exists_true w p : file_exists w p = true <-> files w p <> None.
Proof.
  unfold file_exists. destruct (files w p); split; congruence.
Qed.

Lemma read_text_exists w p content :
  read_text w p = Some content -> file_exists w p = true.
Proof.
  unfold read_text, file_exists. destruct (files w p); [reflexivity|].
  discriminate.
Qed.

Lemma set_file_other w p chars q :
  q <> p -> files (set_file w p chars) q = files w q.
Proof.
  intros H. cbn. apply String.eqb_neq in H. now rewrite H.
Qed.

Lemma set_file_exists w p chars q :
  file_exists w p = true ->
  file_exists (set_file w p chars) q = file_exists w q.
Proof.
  intros Hp. unfold file_exists in *. cbn.
  destruct (String.eqb q p) eqn:E; [|reflexivity].
  apply String.eqb_eq in E. now subst q.
Qed.

(** What a write to a file that exists does to the world: whether it
    succeeds or not, no other file is touched and no file appears or
    disappears; the log grows exactly when the write is completed. *)
Lemma write_text_effect w p content :
  file_exists w p = true ->
  (forall q, q <> p -> files (snd (write_text w p content)) q = files w q)
  /\ (forall q, file_exists (snd (write_text w p content)) q
                = file_exists w q)
  /\ writes (snd (write_text w p content))
     = writes w
       ++ (if fst (write_text w p content) then [(p, content)] else []).
Proof.
  intros Hp. unfold write_text.
  destruct (outcome w p content) as [| |remains]; cbn [fst snd].
  - split; [|split].
    + intros q Hq. now apply (set_file_other w p _ q).
    + intros q. now apply (set_file_exists w p _ q).
    + reflexivity.
  - split; [|split]; [reflexivity|reflexivity|]. now rewrite app_nil_r.
  - split; [|split].
    + intros q Hq. now apply set_file_other.
    + intros q. now apply set_file_exists.
    + cbn. now rewrite app_nil_r.
Qed.

(** What [process_file] does to the world: it touches no file but its
    own, creates and removes none, and completes one write, to its file,
    exactly when it reports an update. *)
Lemma process_file_effect p fixes w :
  (forall q, q <> p -> files (snd (process_file p fixes w)) q = files w q)
  /\ (forall q, file_exists (snd (process_file p fixes w)) q
                = file_exists w q)
  /\ (file_exists w p = false -> snd (process_file p fixes w) = w)
  /\ exists new,
       writes (snd (process_file p fixes w)) = writes w ++ new
       /\ map fst new
          = match fst (process_file p fixes w) with
            | Updated => [p]
            | _ => []
            end.
Proof.
  unfold process_file.
  destruct (read_text w p) as [content|] eqn:R.
  2:{ cbn [fst snd]. repeat split; auto.
      exists []. now rewrite app_nil_r. }
  apply read_text_exists in R.
  destruct (negb _).
  2:{ cbn [fst snd]. repeat split; auto.
      exists []. now rewrite app_nil_r. }
  destruct (write_text_effect w p
              (apply_specs fixes (add_use_callback_import content)) R)
    as (W1 & W2 & W3).
  destruct (write_text w p _) as [[|] w']; cbn [fst snd] in *.
  - repeat split; auto; try congruence.
    now exists [(p, apply_specs fixes (add_use_callback_import content))].
  - repeat split; auto; try congruence. exists []. now split.
Qed.

Lemma main_step_invariant acc entry :
  let acc' := main_step acc entry in
  (forall q, file_exists (snd acc') q = file_exists (snd acc) q)
  /\ (forall q, q <> fst entry -> files (snd acc') q = files (snd acc) q)
  /\ (file_exists (snd acc) (fst entry) = false -> snd acc' = snd acc)
  /\ fst acc'
     = fst acc
       ++ (if file_exists (snd acc) (fst entry) then
             [(fst entry, fst (process_file (fst entry) (snd entry)
                                 (snd acc)))]
           else [])
  /\ exists new,
       writes (snd acc') = writes (snd acc) ++ new
       /\ map fst new
          = (if file_exists (snd acc) (fst entry) then
               match fst (process_file (fst entry) (snd entry) (snd acc))
               with
               | Updated => [fst entry]
               | _ => []
               end
             else []).
Proof.
  destruct acc as [reports w], entry as [p fixes]. cbn [fst snd main_step].
  destruct (file_exists w p) eqn:F.
  2:{ cbn [fst snd]. rewrite app_nil_r. repeat split; auto.
      exists []. now rewrite app_nil_r. }
  destruct (process_file_effect p fixes w) as (H1 & H2 & _ & new & H3 & H4).
  destruct (process_file p fixes w) as [r w'] eqn:P. cbn [fst snd] in *.
  split; [exact H2|]. split; [exact H1|]. split; [discriminate|].
  split; [reflexivity|]. now exists new.
Qed.

Lemma main_fold_invariant catalogue : forall acc,
  let acc' := fold_left main_step catalogue acc in
  (forall q, file_exists (snd acc') q = file_exists (snd acc) q)
  /\ (forall q, ~ In q (map fst catalogue)
                \/ file_exists (snd acc) q = false ->
                files (snd acc') q = files (snd acc) q)
  /\ map fst (fst acc')
     = map fst (fst acc)
       ++ filter (file_exists (snd acc)) (map fst catalogue)
  /\ exists new,
       writes (snd acc') = writes (snd acc) ++ new
       /\ fst acc' = fst acc ++ skipn (length (fst acc)) (fst acc')
       /\ map fst new
          = map fst
              (filter (fun pr => match snd pr with
                                 | Updated => true
                                 | _ => false
                                 end)
                 (skipn (length (fst acc)) (fst acc'))).
Proof.
  induction catalogue as [|entry catalogue IH]; intros acc; cbv zeta.
  - cbn [fold_left map filter In]. rewrite app_nil_r.
    repeat split; auto. exists []. rewrite skipn_all, !app_nil_r.
    repeat split.
  - cbn [fold_left map filter In].
    destruct (main_step_invariant acc entry)
      as (S1 & S2 & S2' & S3 & new1 & S4 & S5).
    destruct (IH (main_step acc entry))
      as (I1 & I2 & I3 & new2 & I4 & I5 & I6).
    cbv zeta in *. set (acc1 := main_step acc entry) in *.
    set (acc2 := fold_left main_step catalogue acc1) in *.
    split; [intros q; rewrite I1; apply S1|].
    split.
    { intros q Hq. rewrite I2.
      - destruct (String.eqb q (fst entry)) eqn:E.
        + apply String.eqb_eq in E. subst q.
          destruct Hq as [Hq|Hq]; [tauto|]. now rewrite S2'.
        + apply S2. now apply String.eqb_neq.
      - rewrite S1. tauto. }
    assert (Hfilter : filter (file_exists (snd acc1)) (map fst catalogue)
                      = filter (file_exists (snd acc)) (map fst catalogue)).
    { apply filter_ext. exact S1. }
    split.
    { rewrite I3, S3, Hfilter, map_app, <- app_assoc. f_equal.
      destruct (file_exists (snd acc) (fst entry)); reflexivity. }
    exists (new1 ++ new2).
    assert (Hskip : skipn (length (fst acc)) (fst acc2)
                    = (if file_exists (snd acc) (fst entry) then
                         [(fst entry,
                           fst (process_file (fst entry) (snd entry)
                                  (snd acc)))]
                       else [])
                      ++ skipn (length (fst acc1)) (fst acc2)).
    { rewrite I5 at 1. rewrite S3 at 1. rewrite <- app_assoc.
      now rewrite skipn_app, skipn_all, Nat.sub_diag. }
    split; [rewrite I4, S4; now rewrite app_assoc|].
    split.
    { rewrite Hskip. rewrite I5 at 1. rewrite S3 at 1.
      now rewrite <- app_assoc. }
    rewrite Hskip, filter_app, !map_app, <- I6, S5. f_equal.
    destruct (file_exists (snd acc) (fst entry)); [|reflexivity].
    cbn [filter snd].
    destruct (fst (process_file (fst entry) (snd entry) (snd acc)));
      reflexivity.
Qed.



(** X10.  [main] reports on exactly the catalogue files that exist, once
    each and in the order of the catalogue. *)
Theorem main_reports_each_existing_file
    (catalogue : list (path * list fix_spec)) (w : world) :
  map fst (fst (main_loop catalogue w))
  = filter (file_exists w) (map fst catalogue).
Proof.
  destruct (main_fold_invariant catalogue ([], w)) as (_ & _ & H & _).
  exact H.
Qed.

(** X11.  The writes [main] adds to the log are, in order, one write per
    file reported as updated, to that file. *)
Theorem main_writes_the_updated_files
    (catalogue : list (path * list fix_spec)) (w : world) :
  exists new,
    writes (snd (main_loop catalogue w)) = writes w ++ new
    /\ map fst new
       = map fst
           (filter (fun pr => match snd pr with
                              | Updated => true
                              | _ => false
                              end)
              (fst (main_loop catalogue w))).
Proof.
  destruct (main_fold_invariant catalogue ([], w))
    as (_ & _ & _ & new & H1 & _ & H2).
  exists new. split; [exact H1|exact H2].
Qed.

Lemma wrap_without_backslash content func_name deps :
  ~ In backslash content ->
  wrap_function_with_callback content func_name deps = content.
Proof.
  intros H. unfold wrap_function_with_callback.
  replace (Py.contains (anchor_pattern func_name) content) with false;
    [reflexivity|].
  symmetry. apply contains_false. intros Ho. apply H.
  apply (occurs_In _ _ _ Ho), anchor_pattern_backslash.
Qed.

Lemma add_deps_without_anchor content func_name :
  ~ occurs effect_anchor content ->
  add_deps_to_useeffect content func_name = content.
Proof.
  intros H. unfold add_deps_to_useeffect, Re.finditer.
  rewrite finditer_skip_none; [reflexivity|].
  intros a b ->. apply effect_match_needs_anchor.
  now apply (not_occurs_suffix _ a).
Qed.

Lemma import_without_line content :
  ~ occurs (txt "import React, { ") content ->
  add_use_callback_import content = content.
Proof.
  intros H.
  destruct (add_use_callback_import_cases content)
    as [E | (names & segs & _ & _ & Hlen & Hs & _)]; [exact E|].
  exfalso. apply H.
  apply (occurs_trans _ (import_line names)).
  - exists [], (names ++ txt " } from 'react';"). reflexivity.
  - rewrite Hs. now apply occurs_join_sep.
Qed.

Lemma apply_specs_without_hooks fixes : forall content,
  ~ In backslash content -> ~ occurs effect_anchor content ->
  apply_specs fixes content = content.
Proof.
  unfold apply_specs.
  induction fixes as [|fx fixes IH]; intros content Hb Ha; [reflexivity|].
  cbn [fold_left].
  rewrite wrap_without_backslash, add_deps_without_anchor by assumption.
  now apply IH.
Qed.

(** X12.  A file whose text has no backslash, no [useEffect(() => {] and
    no [import React, { ] is reported as needing no change and is not
    written, whatever functions with names made of word characters are to
    be wrapped. *)
Theorem process_file_leaves_files_without_hooks
    (p : path) (fixes : list fix_spec) (w : world) (content : text)
    (Hplain : Forall (fun fx => plain_name (fix_name fx) = true) fixes)
    (Hread : read_text w p = Some content)
    (Hraw : ~ In backslash content)
    (Heffect : ~ occurs effect_anchor content)
    (Himport : ~ occurs (txt "import React, { ") content) :
  process_file p fixes w = (NoChanges, w).
Proof.
  unfold process_file. rewrite Hread.
  rewrite import_without_line by assumption.
  rewrite apply_specs_without_hooks by assumption.
  replace (text_eqb content content) with true
    by (symmetry; now apply text_eqb_true).
  reflexivity.
Qed.

Lemma process_file_leaves_witness :
  process_file sample_path sample_specs sample_world
  = (NoChanges, sample_world).
Proof.
  apply (process_file_leaves_files_without_hooks _ _ _
           (txt "const isAdmin = useIsAdmin();")).
  - repeat constructor.
  - reflexivity.
  - not_in_literal.
  - apply contains_false. vm_compute. reflexivity.
  - apply contains_false. vm_compute. reflexivity.
Defined.

(** ** [fix_file] and its [main] *)

Lemma app_same_length (a b x y : text) :
  length a = length b -> a ++ x = b ++ y -> a = b.
Proof.
  revert b. induction a as [|c a IH]; intros [|d b] H E;
    try discriminate H; [reflexivity|].
  injection E as -> E. f_equal. apply IH; [|exact E].
  now injection H.
Qed.

(** Replacing a text that occurs by a different one changes the text. *)
Lemma replace_changes s old new :
  old <> [] -> new <> old -> occurs old s -> Py.replace s old new <> s.
Proof.
  intros Hold Hnew Ho. destruct old as [|o old]; [congruence|].
  destruct (replace_as_join o old new (length s) s (le_n _))
    as (segs & _ & Hs & Hrep & Hlen).
  specialize (Hlen Ho). rewrite Hrep. rewrite Hs.
  destruct segs as [|p [|q rest]]; try (simpl in Hlen; lia).
  rewrite !join_cons2. intros E. apply app_inv_head in E.
  pose proof (join_length_le (o :: old) new (q :: rest)) as L1.
  pose proof (join_length_le new (o :: old) (q :: rest)) as L2.
  destruct (Nat.lt_trichotomy (length new) (length (o :: old)))
    as [L|[L|L]].
  - apply (f_equal (@length _)) in E. rewrite !length_app in E.
    specialize (L2 (Nat.lt_le_incl _ _ L)). lia.
  - apply Hnew. exact (app_same_length _ _ _ _ L E).
  - apply (f_equal (@length _)) in E. rewrite !length_app in E.
    specialize (L1 (Nat.lt_le_incl _ _ L)). lia.
Qed.

Lemma apply_fixes_app fixes1 fixes2 : forall content,
  apply_fixes (fixes1 ++ fixes2) content
  = match apply_fixes fixes1 content with
    | Some c1 => apply_fixes fixes2 c1
    | None => None
    end.
Proof.
  induction fixes1 as [|[[old|sub] repl] fixes1 IH]; intros content;
    cbn [app apply_fixes]; [reflexivity|apply IH|].
  destruct (sub repl content); [apply IH|reflexivity].
Qed.

(** What [fix_file] does to the world: it touches no file but its own,
    creates and removes none, and completes one write, to its file,
    exactly when it returns [True]. *)
Lemma fix_file_effect p fixes w :
  (forall q, q <> p -> files (snd (fix_file p fixes w)) q = files w q)
  /\ (forall q, file_exists (snd (fix_file p fixes w)) q = file_exists w q)
  /\ (file_exists w p = false -> snd (fix_file p fixes w) = w)
  /\ exists new,
       writes (snd (fix_file p fixes w)) = writes w ++ new
       /\ Z.of_nat (length new) = (if fst (fix_file p fixes w) then 1 else 0)
       /\ Forall (fun pw => fst pw = p) new.
Proof.
  assert (Hsame : forall w0 : world,
    (forall q, q <> p -> files w0 q = files w0 q)
    /\ (forall q, file_exists w0 q = file_exists w0 q)
    /\ (file_exists w0 p = false -> w0 = w0)
    /\ exists new : list (path * text),
         writes w0 = writes w0 ++ new
         /\ Z.of_nat (length new) = 0
         /\ Forall (fun pw => fst pw = p) new).
  { intros w0. repeat split.
    exists []. rewrite app_nil_r. repeat split. constructor. }
  unfold fix_file.
  destruct (read_text w p) as [content|] eqn:R; [|apply Hsame].
  apply read_text_exists in R.
  destruct (apply_fixes fixes content) as [c|]; [|apply Hsame].
  destruct (negb _); [|apply Hsame].
  destruct (write_text_effect w p c R) as (W1 & W2 & W3).
  destruct (write_text w p c) as [[|] w']; cbn [fst snd] in *.
  - split; [exact W1|]. split; [exact W2|]. split; [congruence|].
    exists [(p, c)]. split; [exact W3|]. split; [reflexivity|].
    now repeat constructor.
  - split; [exact W1|]. split; [exact W2|]. split; [congruence|].
    exists []. split; [exact W3|]. split; [reflexivity|constructor].
Qed.

Lemma fix_file_one_rule p w old new content :
  old <> [] -> new <> old ->
  read_text w p = Some content -> occurs old content ->
  fix_file p [(StrPattern old, new)] w
  = write_text w p (Py.replace content old new).
Proof.
  intros Hold Hnew Hread Hocc.
  unfold fix_file. rewrite Hread. cbn [apply_fixes].
  replace (text_eqb (Py.replace content old new) content) with false;
    [reflexivity|].
  symmetry. apply text_eqb_false. now apply replace_changes.
Qed.

Lemma write_text_done w p content :
  fst (write_text w p content) = true <-> outcome w p content = Completed.
Proof.
  unfold write_text.
  destruct (outcome w p content); cbn [fst]; split; congruence.
Qed.

(** X13.  With one literal rule whose pattern is not empty and whose
    replacement differs from it, [fix_file] returns [True] exactly when
    the file can be read, the pattern occurs in it and the write of the
    text with the pattern replaced succeeds. *)
Theorem literal_rule_fixes_iff_pattern_occurs
    (p : path) (w : world) (old new : text)
    (Hold : old <> []) (Hnew : new <> old) :
  fst (fix_file p [(StrPattern old, new)] w) = true
  <-> exists content,
        read_text w p = Some content /\ occurs old content
        /\ outcome w p (Py.replace content old new) = Completed.
Proof.
  destruct (read_text w p) as [content|] eqn:R.
  2:{ unfold fix_file. rewrite R.
      split; [discriminate|]. intros (c & H & _). discriminate H. }
  destruct (Py.contains old content) eqn:C.
  - apply contains_true in C.
    rewrite (fix_file_one_rule p w old new content) by assumption.
    rewrite write_text_done. split.
    + intros H. now exists content.
    + intros (c & Hc & _ & H). now injection Hc as <-.
  - apply contains_false in C. unfold fix_file. rewrite R.
    cbn [apply_fixes]. rewrite replace_absent' by assumption.
    replace (text_eqb content content) with true
      by (symmetry; now apply text_eqb_true).
    cbn [negb fst]. split; [discriminate|].
    intros (c & Hc & Ho & _). injection Hc as <-. tauto.
Qed.

Lemma literal_rule_witness :
  fst (fix_file sample_path sample_fixes sample_world) = true.
Proof.
  apply literal_rule_fixes_iff_pattern_occurs.
  - discriminate.
  - discriminate.
  - exists (txt "const isAdmin = useIsAdmin();"). split; [reflexivity|].
    split; [|reflexivity].
    exists [], (txt "useIsAdmin();"). reflexivity.
Defined.

(** X14.  When the rules are literal and none of their non-empty patterns
    occurs in the file, [fix_file] returns [False] and writes nothing. *)
Theorem fix_file_without_any_pattern
    (p : path) (w : world) (fixes : list (fix_pattern * text))
    (content : text)
    (Hread : read_text w p = Some content)
    (Hrules : Forall (fun rule => exists old,
                          fst rule = StrPattern old
                          /\ old <> [] /\ ~ occurs old content) fixes) :
  fix_file p fixes w = (false, w).
Proof.
  assert (H : apply_fixes fixes content = Some content).
  { induction Hrules as [|[pat repl] fixes (old & E & Hne & Ho) _ IH];
      [reflexivity|].
    cbn [fst] in E. subst pat. cbn [apply_fixes].
    now rewrite replace_absent'. }
  unfold fix_file. rewrite Hread, H.
  replace (text_eqb content content) with true
    by (symmetry; now apply text_eqb_true).
  reflexivity.
Qed.

Lemma fix_file_without_pattern_witness :
  fix_file sample_path
    [(StrPattern (txt ", DIMENSIONS"), []);
     (StrPattern (txt "cursor,"), txt "_cursor,")] sample_world
  = (false, sample_world).
Proof.
  apply (fix_file_without_any_pattern _ _ _
           (txt "const isAdmin = useIsAdmin();")); [reflexivity|].
  repeat constructor.
  - eexists. split; [reflexivity|]. split; [discriminate|].
    apply contains_false. vm_compute. reflexivity.
  - eexists. split; [reflexivity|]. split; [discriminate|].
    apply contains_false. vm_compute. reflexivity.
Defined.

(** Newlines on the way to a file and back. *)
Lemma universal_newlines_no_cr : forall n chars,
  (length chars <= n)%nat -> ~ In CR (universal_newlines chars).
Proof.
  induction n as [|n IH]; intros [|c rest] Hn; simpl in Hn;
    try solve [intros []]; try lia.
  cbn [universal_newlines]. destruct (ascii_eqb c CR) eqn:E.
  - intros [H|H]; [discriminate H|]. revert H.
    destruct rest as [|d rest']; [intros []|].
    destruct (ascii_eqb d LF); apply IH; simpl in *; lia.
  - intros [H|H].
    + apply ascii_eqb_false in E. congruence.
    + revert H. apply IH. lia.
Qed.

Lemma universal_newlines_id chars :
  ~ In CR chars -> universal_newlines chars = chars.
Proof.
  induction chars as [|c rest IH]; intros H; [reflexivity|].
  cbn [universal_newlines].
  assert (E : ascii_eqb c CR = false).
  { apply ascii_eqb_false. intros ->. apply H. now left. }
  rewrite E, IH; [reflexivity|]. intros Hx. apply H. now right.
Qed.

Lemma read_text_no_cr w p content :
  read_text w p = Some content -> ~ In CR content.
Proof.
  unfold read_text. destruct (files w p) as [chars|]; [|discriminate].
  destruct (readable w p); [|discriminate]. intros H. injection H as <-.
  now apply (universal_newlines_no_cr (length chars)).
Qed.

Lemma replace_skip_In c old new s : forall k,
  In c (Py.replace_skip old new s k) -> In c s \/ In c new.
Proof.
  induction s as [|x s IH]; intros k H; [destruct H|].
  cbn [Py.replace_skip] in H. destruct k as [|k].
  - destruct (Py.starts_with old (x :: s)).
    + apply in_app_or in H. destruct H as [H|H]; [now right|].
      apply IH in H. destruct H; [left; now right|now right].
    + destruct H as [H|H]; [left; now left|].
      apply IH in H. destruct H; [left; now right|now right].
  - apply IH in H. destruct H; [left; now right|now right].
Qed.

(** A text without carriage return is read back as it was written. *)
Lemma newline_round_trip h content :
  ~ In CR content -> universal_newlines (newline_out h content) = content.
Proof.
  intros H. unfold newline_out. destruct h; cbn [os_linesep].
  - rewrite replace_same. now apply universal_newlines_id.
  - induction content as [|c rest IH]; [reflexivity|].
    assert (Hrest : ~ In CR rest) by (intros Hx; apply H; now right).
    destruct (ascii_eqb LF c) eqn:E.
    + apply ascii_eqb_true in E. subst c.
      change (LF :: rest) with ([LF] ++ rest). rewrite replace_hit.
      cbn [app universal_newlines]. rewrite !ascii_eqb_refl.
      now rewrite IH.
    + rewrite replace_miss by (cbn [Py.starts_with]; now rewrite E).
      cbn [universal_newlines].
      assert (E' : ascii_eqb c CR = false).
      { apply ascii_eqb_false. intros ->. apply H. now left. }
      rewrite E'. now rewrite IH.
Qed.

Lemma read_text_written w p chars content :
  read_text w p = Some chars -> ~ In CR content ->
  read_text (written w p content) p = Some content.
Proof.
  intros Hread Hcr. unfold read_text in *.
  cbn [written set_file files readable]. rewrite String.eqb_refl.
  destruct (files w p); [|discriminate].
  destruct (readable w p); [|discriminate].
  now rewrite newline_round_trip.
Qed.

(** X15.  A literal rule whose replacement contains its pattern, such as
    [cursor,] to [_cursor,], is applied again by every run: on a file
    that can be written and in which the pattern occurs, [fix_file]
    returns [True], and run again on the file it has written it returns
    [True] once more.  The replacement holds no carriage return, so that
    the second run reads the text that the first one wrote. *)
Theorem rule_applies_again_when_replacement_has_pattern
    (p : path) (w : world) (old new content : text)
    (Hold : old <> []) (Hnew : new <> old)
    (Hinside : occurs old new)
    (Hcr : ~ In CR new)
    (Hread : read_text w p = Some content)
    (Hocc : occurs old content)
    (Hwrite : writable w p) :
  fst (fix_file p [(StrPattern old, new)] w) = true
  /\ fst (fix_file p [(StrPattern old, new)]
            (snd (fix_file p [(StrPattern old, new)] w))) = true.
Proof.
  rewrite (fix_file_one_rule p w old new content) by assumption.
  assert (W : write_text w p (Py.replace content old new)
              = (true, written w p (Py.replace content old new))).
  { unfold write_text. now rewrite Hwrite. }
  rewrite W. cbn [fst snd]. split; [reflexivity|].
  rewrite (fix_file_one_rule p _ old new (Py.replace content old new));
    try assumption.
  - apply write_text_done. apply Hwrite.
  - apply (read_text_written _ _ _ _ Hread).
    intros H. destruct old as [|o old]; [congruence|].
    apply replace_skip_In in H. destruct H as [H|H]; [|tauto].
    revert H. now apply (read_text_no_cr w p).
  - destruct old as [|o old]; [congruence|].
    destruct (replace_as_join o old new (length content) content (le_n _))
      as (segs & _ & _ & -> & Hlen).
    apply occurs_join_r; [now apply Hlen|exact Hinside].
Qed.

Lemma rule_applies_again_witness :
  fst (fix_file sample_path [(StrPattern (txt "isAdmin"), txt "_isAdmin")]
         sample_world) = true
  /\ fst (fix_file sample_path [(StrPattern (txt "isAdmin"), txt "_isAdmin")]
            (snd (fix_file sample_path
                    [(StrPattern (txt "isAdmin"), txt "_isAdmin")]
                    sample_world))) = true.
Proof.
  apply (rule_applies_again_when_replacement_has_pattern _ _ _ _
           (txt "const isAdmin = useIsAdmin();")).
  - discriminate.
  - discriminate.
  - exists (txt "_"), []. reflexivity.
  - not_in_literal.
  - reflexivity.
  - exists (txt "const "), (txt " = useIsAdmin();"). reflexivity.
  - intros content. reflexivity.
Defined.

(** X16.  When a rule raises, [fix_file] returns [False] and writes
    nothing, also when the rules before it had changed the text. *)
Theorem raising_rule_discards_earlier_fixes
    (p : path) (w : world) (fixes1 fixes2 : list (fix_pattern * text))
    (sub : text -> text -> option text) (replacement content c1 : text)
    (Hread : read_text w p = Some content)
    (Hbefore : apply_fixes fixes1 content = Some c1)
    (Hraise : sub replacement c1 = None) :
  fix_file p (fixes1 ++ (RePattern sub, replacement) :: fixes2) w
  = (false, w).
Proof.
  unfold fix_file. rewrite Hread, apply_fixes_app, Hbefore.
  cbn [apply_fixes]. now rewrite Hraise.
Qed.

Lemma raising_rule_witness :
  fix_file sample_path
    (sample_fixes ++ [(RePattern (fun _ _ => None), txt "x")]) sample_world
  = (false, sample_world).
Proof.
  apply (raising_rule_discards_earlier_fixes _ _ sample_fixes []
           (fun _ _ => None) (txt "x")
           (txt "const isAdmin = useIsAdmin();")
           (txt "const _isAdmin = useIsAdmin();")).
  - reflexivity.
  - vm_compute. reflexivity.
  - reflexivity.
Defined.

(** X19.  When the fixes have changed the text and the write of the new
    text does not go through, [fix_file] returns [False]: no write is
    completed and no other file is touched; when it is opening the file
    that raises, nothing at all has changed. *)
Theorem failed_write_is_not_reported_as_a_change
    (p : path) (w : world) (fixes : list (fix_pattern * text))
    (original final : text)
    (Hread : read_text w p = Some original)
    (Hfixes : apply_fixes fixes original = Some final)
    (Hdiff : final <> original)
    (Hfail : outcome w p final <> Completed) :
  fst (fix_file p fixes w) = false
  /\ writes (snd (fix_file p fixes w)) = writes w
  /\ (forall q, q <> p -> files (snd (fix_file p fixes w)) q = files w q)
  /\ (outcome w p final = Refused -> snd (fix_file p fixes w) = w).
Proof.
  unfold fix_file. rewrite Hread, Hfixes.
  replace (text_eqb final original) with false
    by (symmetry; now apply text_eqb_false).
  cbn [negb]. unfold write_text.
  destruct (outcome w p final) as [| |remains]; [congruence| |];
    cbn [fst snd].
  - repeat split.
  - split; [reflexivity|]. split; [reflexivity|]. split; [|discriminate].
    intros q Hq. now apply set_file_other.
Qed.

Lemma failed_write_witness :
  fst (fix_file sample_path sample_fixes read_only_world) = false
  /\ writes (snd (fix_file sample_path sample_fixes read_only_world))
     = writes read_only_world
  /\ (forall q, q <> sample_path ->
        files (snd (fix_file sample_path sample_fixes read_only_world)) q
        = files read_only_world q)
  /\ (outcome read_only_world sample_path
        (txt "const _isAdmin = useIsAdmin();") = Refused ->
      snd (fix_file sample_path sample_fixes read_only_world)
      = read_only_world).
Proof.
  apply (failed_write_is_not_reported_as_a_change _ _ _
           (txt "const isAdmin = useIsAdmin();")
           (txt "const _isAdmin = useIsAdmin();")).
  - reflexivity.
  - vm_compute. reflexivity.
  - discriminate.
  - discriminate.
Defined.

Lemma eslint_step_invariant acc entry :
  let acc' := eslint_step acc entry in
  (forall q, file_exists (snd acc') q = file_exists (snd acc) q)
  /\ (forall q, q <> fst entry \/ file_exists (snd acc) q = false ->
                files (snd acc') q = files (snd acc) q)
  /\ exists new,
       writes (snd acc') = writes (snd acc) ++ new
       /\ fst acc' = fst acc + Z.of_nat (length new)
       /\ Forall (fun pw => fst pw = fst entry
                            /\ file_exists (snd acc) (fst pw) = true) new.
Proof.
  destruct acc as [n w], entry as [p fixes]. cbn [fst snd eslint_step].
  destruct (file_exists w p) eqn:F.
  2:{ cbn [fst snd]. repeat split; auto.
      exists []. rewrite app_nil_r. repeat split; [cbn; lia|constructor]. }
  destruct (fix_file_effect p fixes w) as (H1 & H2 & _ & new & H3 & H4 & H5).
  destruct (fix_file p fixes w) as [changed w']. cbn [fst snd] in *.
  assert (G : (forall q, file_exists w' q = file_exists w q)
              /\ (forall q, q <> p \/ file_exists w q = false ->
                            files w' q = files w q)
              /\ Forall (fun pw : path * text =>
                           fst pw = p /\ file_exists w (fst pw) = true) new).
  { split; [exact H2|]. split.
    - intros q [Hq|Hq]; [now apply H1|].
      apply H1. intros ->. congruence.
    - revert H5. apply Forall_impl. intros pw ->. now split. }
  destruct G as (G1 & G2 & G3).
  destruct changed; cbn [fst snd]; (split; [exact G1|]);
    (split; [exact G2|]); exists new;
    (split; [exact H3|]); (split; [lia|exact G3]).
Qed.

(** X17.  [main] of the eslint scripts ends with [fixed_count] equal to
    the number of writes it has added to the log; every one of these
    writes goes to a file of [fixes_map] that existed at the start; no
    file is created or removed, and the files outside [fixes_map], like
    the missing ones, are left as they are. *)
Theorem eslint_main_counts_its_writes
    (fixes_map : list (path * list (fix_pattern * text))) (w : world) :
  (exists new,
     writes (snd (eslint_main fixes_map w)) = writes w ++ new
     /\ fst (eslint_main fixes_map w) = Z.of_nat (length new)
     /\ Forall (fun pw => In (fst pw) (map fst fixes_map)
                          /\ file_exists w (fst pw) = true) new)
  /\ (forall q, file_exists (snd (eslint_main fixes_map w)) q
                = file_exists w q)
  /\ (forall q, ~ In q (map fst fixes_map) \/ file_exists w q = false ->
                files (snd (eslint_main fixes_map w)) q = files w q).
Proof.
  unfold eslint_main.
  assert (G : forall acc,
    let acc' := fold_left eslint_step fixes_map acc in
    (exists new,
       writes (snd acc') = writes (snd acc) ++ new
       /\ fst acc' = fst acc + Z.of_nat (length new)
       /\ Forall (fun pw => In (fst pw) (map fst fixes_map)
                            /\ file_exists (snd acc) (fst pw) = true) new)
    /\ (forall q, file_exists (snd acc') q = file_exists (snd acc) q)
    /\ (forall q, ~ In q (map fst fixes_map)
                  \/ file_exists (snd acc) q = false ->
                  files (snd acc') q = files (snd acc) q)).
  { induction fixes_map as [|entry rest IH]; intros acc; cbv zeta.
    - cbn [fold_left]. repeat split; auto.
      exists []. rewrite app_nil_r. repeat split; [cbn; lia|constructor].
    - cbn [fold_left map In].
      destruct (eslint_step_invariant acc entry)
        as (S1 & S2 & new1 & S3 & S4 & S5).
      destruct (IH (eslint_step acc entry))
        as ((new2 & I3 & I4 & I5) & I1 & I2).
      cbv zeta in *.
      split; [|split].
      + exists (new1 ++ new2). rewrite I3, S3, I4, S4, length_app.
        split; [now rewrite app_assoc|]. split; [lia|].
        apply Forall_app. split.
        * revert S5. apply Forall_impl. intros pw [E H]. rewrite E.
          split; [now left|]. now rewrite <- E.
        * revert I5. apply Forall_impl. intros pw [Hin H].
          split; [now right|]. now rewrite <- S1.
      + intros q. rewrite I1. apply S1.
      + intros q Hq. rewrite I2.
        * apply S2. destruct Hq as [Hq|Hq]; [left; intros ->|]; tauto.
        * rewrite S1. tauto. }
  destruct (G (0, w)) as ((new & H1 & H2 & H3) & H4 & H5).
  cbv zeta in *. cbn [fst snd] in *.
  split; [|split; assumption].
  exists new. repeat split; try assumption.
Qed.

(** ** [process_file] on a component with one import line and one effect *)

Lemma import_match_needs_prefix s :
  Py.starts_with (txt "import React, { ") s = false ->
  Re.match_here react_import_pattern s = None.
Proof.
  intros H. unfold react_import_pattern. cbn [Re.match_here]. now rewrite H.
Qed.

(** At the start of an import line the pattern matches that line, with
    its names as the group. *)
Lemma import_match_line names rest :
  names <> [] -> ~ In close_brace names ->
  Re.match_here react_import_pattern (import_line names ++ rest)
  = Some [txt "import React, { "; names; txt " } from 'react';"].
Proof.
  intros Hne Hn.
  destruct (Re.match_here react_import_pattern (import_line names ++ rest))
    as [gs|] eqn:M.
  2:{ exfalso. revert M. now apply import_line_matches. }
  apply match_here_sound in M. destruct M as [HF [r Hr]].
  unfold react_import_pattern in HF.
  inversion HF as [|i1 x1 p1 l1 M1 F1]; subst; clear HF.
  inversion F1 as [|i2 x2 p2 l2 M2 F2]; subst; clear F1.
  inversion F2 as [|i3 x3 p3 l3 M3 F3]; subst; clear F2.
  inversion F3; subst; clear F3.
  inversion M1; subst; clear M1. inversion M2; subst; clear M2.
  inversion M3; subst; clear M3.
  cbn [concat] in Hr. unfold import_line in Hr.
  rewrite <- !app_assoc in Hr. apply app_inv_head in Hr.
  assert (E : (names ++ [" "%char])
              ++ close_brace :: (txt " from 'react';" ++ rest)
              = (x2 ++ [" "%char])
                ++ close_brace :: (txt " from 'react';" ++ [] ++ r)).
  { rewrite <- !app_assoc. exact Hr. }
  apply split_at_first in E.
  - destruct E as [E _]. apply app_inj_tail in E. destruct E as [<- _].
    reflexivity.
  - rewrite in_app_iff. intros [H|[H|[]]]; [tauto|discriminate H].
  - rewrite in_app_iff. intros [H|[H|[]]]; [tauto|discriminate H].
Qed.

Lemma search_import_no_start pre rest : forall i,
  no_start (txt "import React, { ") pre rest ->
  Re.search_from react_import_pattern (pre ++ rest) i
  = Re.search_from react_import_pattern rest (i + Z.of_nat (length pre)).
Proof.
  induction pre as [|c pre IH]; intros i H.
  - cbn [app length]. f_equal. simpl. lia.
  - destruct H as [H1 H2]. cbn [app Re.search_from].
    cbn [app] in H1. rewrite (import_match_needs_prefix _ H1).
    rewrite IH by exact H2. f_equal. cbn [length]. lia.
Qed.

(** The import line that is the only place where [import React, { ]
    occurs gets [, useCallback] after its names. *)
Lemma import_rewrites_the_line pre names rest :
  names <> [] -> ~ In close_brace names ->
  ~ occurs (txt "useCallback") (pre ++ import_line names ++ rest) ->
  no_start (txt "import React, { ") pre (import_line names ++ rest) ->
  ~ occurs (txt "import React, { ") rest ->
  add_use_callback_import (pre ++ import_line names ++ rest)
  = pre ++ import_line (names ++ txt ", useCallback") ++ rest.
Proof.
  intros Hne Hn Habsent Hpre Hrest.
  unfold add_use_callback_import.
  apply contains_false in Habsent. rewrite Habsent.
  apply contains_false in Habsent.
  unfold Re.search. rewrite search_import_no_start by exact Hpre.
  assert (Hl : exists c l, import_line names ++ rest = c :: l)
    by (unfold import_line; eexists _, _; reflexivity).
  destruct Hl as (c & l & El).
  rewrite El. cbn [Re.search_from]. rewrite <- El.
  rewrite import_match_line by assumption.
  unfold Re.part, Re.group0. cbn [Re.m_parts nth concat].
  rewrite app_nil_r.
  assert (Hc : Py.contains (txt "useCallback") names = false).
  { apply contains_false. intros H. apply Habsent.
    apply (occurs_trans _ _ _ H).
    exists (pre ++ txt "import React, { "), (txt " } from 'react';" ++ rest).
    unfold import_line. now rewrite <- !app_assoc. }
  rewrite Hc. cbn [negb].
  fold (import_line names).
  fold (import_line (names ++ txt ", useCallback")).
  assert (Hnil : import_line names <> []) by discriminate.
  rewrite replace_no_start'; [|exact Hnil|].
  - rewrite replace_hit' by exact Hnil.
    rewrite replace_absent'; [reflexivity|exact Hnil|].
    unfold import_line. now apply not_occurs_longer.
  - unfold import_line at 1. now apply no_start_longer.
Qed.

(** X18.  Take a file that can be written, without backslash and without
    [useCallback], made of a lead, the one import line [import React, { <names> } from
    'react';], some text, one effect of the fixed shape that calls
    [func_name] and does not list it, and a rest without another effect.
    With the one entry [func_name] to wrap, [process_file] reports an
    update and writes the file with [, useCallback] after the imported
    names and [func_name] at the end of the dependency list; the
    declaration of the function is not wrapped. *)
Theorem process_file_on_a_component
    (p : path) (w : world) (deps_to_wrap : list text)
    (lead names mid b1 b2 deps post func_name : text)
    (Hread : read_text w p
             = Some (lead ++ import_line names ++ mid
                     ++ effect_block func_name b1 b2 deps ++ post))
    (Hraw : ~ In backslash
              (lead ++ import_line names ++ mid
               ++ effect_block func_name b1 b2 deps ++ post))
    (Hsymbol : ~ occurs (txt "useCallback")
                 (lead ++ import_line names ++ mid
                  ++ effect_block func_name b1 b2 deps ++ post))
    (Hnames : names <> []) (Hnames' : ~ In close_brace names)
    (Himport : Py.find (txt "import React, { ")
                 (lead ++ import_line names ++ mid
                  ++ effect_block func_name b1 b2 deps ++ post)
               = Z.of_nat (length lead))
    (Himport' : Py.contains (txt "import React, { ")
                  (mid ++ effect_block func_name b1 b2 deps ++ post)
                = false)
    (Hname : plain_name func_name = true)
    (Hbrace1 : ~ In close_brace b1) (Hbrace2 : ~ In close_brace b2)
    (Hbracket1 : ~ In open_bracket b1) (Hbracket2 : ~ In open_bracket b2)
    (Hdeps : ~ In close_bracket deps)
    (Hstrip : Py.strip deps = deps)
    (Habsent : Py.contains func_name deps = false)
    (Hfirst : Py.find effect_anchor
                ((lead ++ import_line (names ++ txt ", useCallback") ++ mid)
                 ++ effect_block func_name b1 b2 deps ++ post)
              = Z.of_nat
                  (length (lead
                           ++ import_line (names ++ txt ", useCallback")
                           ++ mid)))
    (Hlast : Py.contains effect_anchor post = false)
    (Hwrite : writable w p) :
  process_file p [{| fix_name := func_name; fix_deps := deps_to_wrap |}] w
  = (Updated,
     written w p
       (lead ++ import_line (names ++ txt ", useCallback") ++ mid
        ++ effect_block func_name b1 b2 (appended_deps deps func_name)
        ++ post)).
Proof.
  apply contains_false in Himport', Hlast.
  unfold process_file. rewrite Hread.
  rewrite import_rewrites_the_line; try assumption.
  2:{ apply (find_no_start _ _ _ 0); [lia|exact Himport]. }
  unfold apply_specs. cbn [fold_left fix_name fix_deps].
  rewrite wrap_without_backslash.
  2:{ intros H. apply Hraw. unfold import_line in *.
      rewrite !in_app_iff in *.
      destruct H as [H|[[H|[[H|H]|H]]|H]]; try tauto.
      vm_compute in H. intuition discriminate. }
  replace (lead ++ import_line (names ++ txt ", useCallback") ++ mid
           ++ effect_block func_name b1 b2 deps ++ post)
    with ((lead ++ import_line (names ++ txt ", useCallback") ++ mid)
          ++ effect_block func_name b1 b2 deps ++ post)
    by now rewrite <- !app_assoc.
  rewrite single_effect_appended; try assumption.
  2:{ apply (find_no_start _ _ _ 0); [lia|exact Hfirst]. }
  rewrite <- !app_assoc.
  match goal with |- (if negb (text_eqb ?a ?b) then _ else _) = _ =>
    replace (text_eqb a b) with false;
      [unfold write_text; now rewrite Hwrite|] end.
  symmetry. apply text_eqb_false. intros E. apply Hsymbol. rewrite <- E.
  apply (occurs_trans _ _ _ (import_line_has_symbol names)).
  now exists lead,
    (mid ++ effect_block func_name b1 b2 (appended_deps deps func_name)
     ++ post).
Qed.

Lemma process_file_on_a_component_witness :
  process_file component_path
    [{| fix_name := txt "loadGroups"; fix_deps := [txt "userId"] |}]
    component_world
  = (Updated,
     written component_world component_path
       (txt "'use client'; import React, { useState, useEffect, useCallback } from 'react'; function Card({ userId }) { useEffect(() => { loadGroups(); }, [userId, loadGroups]); }")).
Proof.
  apply (process_file_on_a_component
           component_path component_world [txt "userId"]
           (txt "'use client'; ") (txt "useState, useEffect")
           (txt " function Card({ userId }) { ") (txt " ") (txt " ")
           (txt "userId") (txt " }") (txt "loadGroups"));
    try not_in_literal; try (vm_compute; reflexivity).
  apply contains_false. vm_compute. reflexivity.
Defined.

Example main_on_a_component :
  fst (main_loop FIXES component_world) = [(component_path, Updated)]
  /\ map fst (writes (snd (main_loop FIXES component_world)))
     = [component_path].
Proof. split; vm_compute; reflexivity. Qed.
